(** * umpparser: the UMP varint codec and the resumable part parser

    A shallow embedding of [types.go] (package umpparser) and the properties
    of its varint codec, its part state machine and its two entry points.

    Conventions of the embedding:
    - a Go [byte] is a [Byte.byte]; [int_of_byte] is the conversion [int(b)];
    - a Go [int] is a [Z].  On the 64-bit targets of the package every
      integer the code computes is an index of a slice or a decoded varint
      (below [2^32], lemma [readVarInt_value_bound]), so no operation wraps;
    - a Go slice is a [list byte]; an index or slice expression out of range
      is the outcome [Panic];
    - a pointer argument that the callee updates ([*offset], the buffers, the
      [firstMedia] flag) is passed in and returned explicitly;
    - a Go [for] loop without a static bound takes a fuel argument and gives
      [OutOfFuel] when it is used up. *)

From Stdlib Require Import String Strings.Byte.
From Stdlib Require Import ZArith List Lia Bool.
Import ListNotations.
Local Open Scope Z_scope.

(** ** Data model *)

(** MediaHeader is a struct that represents part 20 of the UMP data. *)
Record UMPMediaHeader : Type := mkUMPMediaHeader {
  VideoID : string;  (* field 2 *)
  ITag : Z;          (* int32, field 3 *)
  Lmt : Z            (* int64, field 4 *)
}.

Record UMPData : Type := mkUMPData {
  MediaHeader : option UMPMediaHeader;  (* *UMPMediaHeader, nil is None *)
  Media : list byte
}.

(** The zero value [UMPData{}]. *)
Definition UMPData_zero : UMPData := mkUMPData None [].

(** The error values the package builds, one constructor per message. *)
Inductive error : Type :=
| ErrNoDataAvailable                 (* "no data available" *)
| ErrInvalidVarint (pos : Z)         (* "invalid varint at pos %d: all top 5 bits set" *)
| ErrIncompleteVarint                (* "incomplete varint" *)
| ErrProto (msg : string)            (* an error returned by proto.Unmarshal *)
| ErrUnmarshalHeader (cause : error) (* "failed to unmarshal media header: %w" *)
| ErrNoDataToParse                   (* "no data to parse" *)
| ErrParseUMP (cause : error).       (* "failed to parse UMP data: %w" *)

(** The two kinds of codec failure: more bytes may help, or the stream is
    corrupt. *)
Definition isInsufficientData (e : error) : bool :=
  match e with
  | ErrNoDataAvailable | ErrIncompleteVarint => true
  | _ => false
  end.

Definition isMalformedVarint (e : error) : bool :=
  match e with
  | ErrInvalidVarint _ => true
  | _ => false
  end.

(** ** Outcomes of a run *)

Inductive run (A : Type) : Type :=
| Done (a : A)
| Panic       (* index or slice bounds out of range *)
| OutOfFuel.  (* the loop did not end within the fuel given *)

Arguments Done {A} a.
Arguments Panic {A}.
Arguments OutOfFuel {A}.

Definition bind {A B : Type} (m : run A) (k : A -> run B) : run B :=
  match m with
  | Done a => k a
  | Panic => Panic
  | OutOfFuel => OutOfFuel
  end.

Notation "x <- m ;; k" := (bind m (fun x => k))
  (at level 61, m at next level, right associativity).
Notation "' p <- m ;; k" := (bind m (fun x => let p := x in k))
  (at level 61, p pattern, m at next level, right associativity).

(** ** Slices *)

Definition len {A : Type} (l : list A) : Z := Z.of_nat (length l).

Definition int_of_byte (b : byte) : Z := Z.of_N (Byte.to_N b).

(** [data[i]] *)
Definition index (data : list byte) (i : Z) : run byte :=
  if (0 <=? i) && (i <? len data) then
    match nth_error data (Z.to_nat i) with
    | Some b => Done b
    | None => Panic
    end
  else Panic.

(** [data[lo:hi]] *)
Definition slice (data : list byte) (lo hi : Z) : run (list byte) :=
  if (0 <=? lo) && (lo <=? hi) && (hi <=? len data) then
    Done (firstn (Z.to_nat (hi - lo)) (skipn (Z.to_nat lo) data))
  else Panic.

(** ** Varint codec *)

(** The [for shift := 1; shift <= 5; shift++] loop of [getVarIntSize];
    [n] counts the iterations left. *)
Fixpoint getVarIntSize_from (n : nat) (shift : Z) (b : byte) : Z :=
  match n with
  | O => 0 (* indicates invalid varint *)
  | S n' =>
      if Z.land (int_of_byte b) (Z.shiftr 0x80 (shift - 1)) =? 0 then shift
      else getVarIntSize_from n' (shift + 1) b
  end.

Definition getVarIntSize (b : byte) : Z := getVarIntSize_from 5 1 b.

(** [readVarInt data offset] gives the pair the Go function returns and the
    value of [*offset] at that point. *)
Definition readVarInt (data : list byte) (offset : Z)
  : run ((Z * option error) * Z) :=
  let start := offset in
  if start >=? len data then Done ((0, Some ErrNoDataAvailable), offset)
  else
    first <- index data start ;;
    let size := getVarIntSize first in
    if size =? 0 then Done ((0, Some (ErrInvalidVarint start)), offset)
    else if start + size >? len data then
      Done ((0, Some ErrIncompleteVarint), offset)
    else
      value <-
        (match size with
         | 1 => Done (int_of_byte first)
         | 2 =>
             b1 <- index data (start + 1) ;;
             Done (Z.lor (Z.land (int_of_byte first) 0x3F)
                         (Z.shiftl (int_of_byte b1) 6))
         | 3 =>
             b1 <- index data (start + 1) ;;
             b2 <- index data (start + 2) ;;
             Done (Z.lor (Z.lor (Z.land (int_of_byte first) 0x1F)
                                (Z.shiftl (int_of_byte b1) 5))
                         (Z.shiftl (int_of_byte b2) 13))
         | 4 =>
             b1 <- index data (start + 1) ;;
             b2 <- index data (start + 2) ;;
             b3 <- index data (start + 3) ;;
             Done (Z.lor (Z.lor (Z.lor (Z.land (int_of_byte first) 0x0F)
                                       (Z.shiftl (int_of_byte b1) 4))
                                (Z.shiftl (int_of_byte b2) 12))
                         (Z.shiftl (int_of_byte b3) 20))
         | 5 =>
             b1 <- index data (start + 1) ;;
             b2 <- index data (start + 2) ;;
             b3 <- index data (start + 3) ;;
             b4 <- index data (start + 4) ;;
             Done (Z.lor (Z.lor (Z.lor (int_of_byte b1)
                                       (Z.shiftl (int_of_byte b2) 8))
                                (Z.shiftl (int_of_byte b3) 16))
                         (Z.shiftl (int_of_byte b4) 24))
         | _ => Done 0
         end) ;;
      Done ((value, None), offset + size).

(** ** The header message of part 20 *)

(** [proto.Unmarshal] and the generated message type [MediaHeader] with its
    getters come from outside [types.go]; the parser uses them through this
    interface. *)
Class MediaHeaderProto : Type := {
  ProtoMediaHeader : Type;
  (* [proto.Unmarshal(payload, &protoHeader)] on a zero [protoHeader]: the
     error returned (nil is None) and the message filled in *)
  Unmarshal : list byte -> option error * ProtoMediaHeader;
  GetVideoId : ProtoMediaHeader -> string;
  GetItag : ProtoMediaHeader -> Z;
  GetLmt : ProtoMediaHeader -> Z
}.

(** ** Stream state machine *)

(** What the three pointer arguments of [stateMachineParser] point to. *)
Record Session : Type := mkSession {
  buf : list byte;       (* the unread bytes of the pending buffer *)
  mediaAcc : list byte;  (* the bytes written to the media accumulator *)
  firstMedia : bool
}.

(** The variables the parsing loop updates. *)
Record loopVars : Type := mkVars {
  offset : Z;
  umpHeader : option UMPMediaHeader;
  accV : list byte;   (* *mediaAcc *)
  firstV : bool       (* *firstMedia *)
}.

Inductive loopExit : Type :=
| Break (v : loopVars)                 (* the loop was left by [break] *)
| Return (err : error) (v : loopVars). (* [return nil, err] in the loop *)

Section Parser.

Context {codec : MediaHeaderProto}.

(** The [partType == 20] branch: the new value of [umpHeader], or the error
    returned. *)
Definition headerPart (payload : list byte) : error + UMPMediaHeader :=
  let '(err, protoHeader) := Unmarshal payload in
  match err with
  | Some e => inl (ErrUnmarshalHeader e)
  | None =>
      inr {| VideoID := GetVideoId protoHeader;
             ITag := GetItag protoHeader;
             Lmt := GetLmt protoHeader |}
  end.

(** The [partType == 21] branch: the accumulator and the flag after it. *)
Definition mediaPart (payload : list byte) (acc : list byte) (first : bool)
  : run (list byte * bool) :=
  skip <-
    (if negb first && (len payload >? 0) then
       b <- index payload 0 ;; Done (int_of_byte b =? 0)
     else Done false) ;;
  acc' <-
    (if skip : bool then
       (* For the very first media part, skip the leading null byte. *)
       rest <- slice payload 1 (len payload) ;; Done (acc ++ rest)
     else Done (acc ++ payload)) ;;
  Done (acc', true).

Fixpoint parseLoop (fuel : nat) (data : list byte) (v : loopVars)
  : run loopExit :=
  match fuel with
  | O => OutOfFuel
  | S fuel' =>
      (* Step 1: If no data remains, break. *)
      if offset v >=? len data then Done (Break v)
      else
        (* Step 2: Read part type. *)
        '((partType, err), offset1) <- readVarInt data (offset v) ;;
        match err with
        | Some _ => Done (Break (mkVars offset1 (umpHeader v) (accV v) (firstV v)))
        | None =>
        (* Read part payload length. *)
        '((partSize, err), offset2) <- readVarInt data offset1 ;;
        match err with
        | Some _ =>
            Done (Break (mkVars (offset2 - 0) (umpHeader v) (accV v) (firstV v)))
        | None =>
        (* Step 3: If part size is zero, it's a zero-length part. *)
        if partSize =? 0 then
          parseLoop fuel' data (mkVars offset2 (umpHeader v) (accV v) (firstV v))
        (* Step 4: Check if we have enough bytes remaining for the payload. *)
        else if offset2 + partSize >? len data then
          Done (Break (mkVars offset2 (umpHeader v) (accV v) (firstV v)))
        else
          payload <- slice data offset2 (offset2 + partSize) ;;
          match (if partType =? 20 then
                   match headerPart payload with
                   | inl e => inl e
                   | inr h => inr (Some h)
                   end
                 else inr (umpHeader v)) with
          | inl e => Done (Return e (mkVars offset2 (umpHeader v) (accV v) (firstV v)))
          | inr hdr =>
              '(acc, first) <-
                (if partType =? 21 then mediaPart payload (accV v) (firstV v)
                 else Done (accV v, firstV v)) ;;
              (* Step 5: Increment offset by the payload size. *)
              parseLoop fuel' data (mkVars (offset2 + partSize) hdr acc first)
          end
        end
        end
  end.

(** Every turn of the loop that does not leave it moves [offset] forward by
    at least two bytes, so [S (length data)] turns are enough (lemma
    [parseLoop_total]). *)
Definition stateMachineParser (s : Session)
  : run ((option UMPMediaHeader * option error) * Session) :=
  let data := buf s in
  e <- parseLoop (S (length data)) data
         (mkVars 0 None (mediaAcc s) (firstMedia s)) ;;
  match e with
  | Return err v => Done ((None, Some err), mkSession data (accV v) (firstV v))
  | Break v =>
      (* Remove the consumed bytes from the buffer. *)
      Done ((umpHeader v, None),
            mkSession (skipn (Z.to_nat (offset v)) data) (accV v) (firstV v))
  end.

(** ** Decode orchestration *)

(** The [for _, chunk := range data] loop of [ParseUMPChunks]. *)
Fixpoint chunksLoop (data : list (list byte)) (s : Session)
    (umpHeader : option UMPMediaHeader) : run (UMPData * option error) :=
  match data with
  | [] => Done (mkUMPData umpHeader (mediaAcc s), None)
  | chunk :: data' =>
      if len chunk =? 0 then chunksLoop data' s umpHeader (* skip empty chunks *)
      else
        let s1 := mkSession (buf s ++ chunk) (mediaAcc s) (firstMedia s) in
        '((h, err), s2) <- stateMachineParser s1 ;;
        match err with
        | Some e => Done (UMPData_zero, Some (ErrParseUMP e))
        | None =>
            chunksLoop data' s2
              (match h with Some _ => h | None => umpHeader end)
        end
  end.

Definition ParseUMPChunks (data : list (list byte))
  : run (UMPData * option error) :=
  if len data =? 0 then Done (UMPData_zero, Some ErrNoDataToParse)
  else chunksLoop data (mkSession [] [] false) None.

(** The [for buf.Len() > 0] loop of [ParseUMPFull]. *)
Fixpoint fullLoop (fuel : nat) (s : Session)
    (umpHeader : option UMPMediaHeader) : run (UMPData * option error) :=
  match fuel with
  | O => OutOfFuel
  | S fuel' =>
      if len (buf s) >? 0 then
        '((h, err), s') <- stateMachineParser s ;;
        match err with
        | Some e => Done (UMPData_zero, Some (ErrParseUMP e))
        | None =>
            fullLoop fuel' s'
              (match h with Some _ => h | None => umpHeader end)
        end
      else Done (mkUMPData umpHeader (mediaAcc s), None)
  end.

Definition ParseUMPFull (fuel : nat) (data : list byte)
  : run (UMPData * option error) :=
  if len data =? 0 then Done (UMPData_zero, Some ErrNoDataToParse)
  else fullLoop fuel (mkSession data [] false) None.

(** [ParseUMPFull data] returns [r]: some number of turns of its loop is
    enough to reach the [return]. *)
Definition ParseUMPFull_returns (data : list byte)
    (r : UMPData * option error) : Prop :=
  exists fuel, ParseUMPFull fuel data = Done r.

End Parser.

(** ** A header message codec to run the parser with *)

(** Modelled from the spec: the header wire format of a type-20 payload.
    [proto.Unmarshal] and the generated message are outside [types.go]; the
    payload is a serialized record whose field 2 is the text video
    identifier, field 3 the signed 32-bit format tag and field 4 the signed
    64-bit last-modified time; unknown fields are skipped, absent fields keep
    the empty string and zero.  The record is read in the protocol-buffer
    wire format: a key [(field << 3) | wire_type] and, by wire type, a
    base-128 varint (0), eight bytes (1), a length-prefixed byte string (2)
    or four bytes (5). *)
Record WireMediaHeader : Type := mkWire {
  video_id : string;
  itag : Z;
  lmt : Z
}.

Definition to_int32 (x : Z) : Z := (x + 2 ^ 31) mod 2 ^ 32 - 2 ^ 31.
Definition to_int64 (x : Z) : Z := (x + 2 ^ 63) mod 2 ^ 64 - 2 ^ 63.

(** Modelled from the spec: a base-128 varint of the header wire format, of
    at most [n] bytes, least significant group first. *)
Fixpoint wireVarint (n : nat) (bs : list byte) (shift acc : Z)
  : option (Z * list byte) :=
  match n, bs with
  | S n', b :: bs' =>
      let acc' := Z.lor acc (Z.shiftl (Z.land (int_of_byte b) 0x7F) shift) in
      if int_of_byte b <? 0x80 then Some (acc' mod 2 ^ 64, bs')
      else wireVarint n' bs' (shift + 7) acc'
  | _, _ => None
  end.

Definition wireSkip (n : Z) (bs : list byte) : option (list byte) :=
  if len bs <? n then None else Some (skipn (Z.to_nat n) bs).

(** Modelled from the spec: the fields of the header wire format, read one
    after the other into the record; [fuel] bounds the number of fields. *)
Fixpoint wireFields (fuel : nat) (bs : list byte) (m : WireMediaHeader)
  : option WireMediaHeader :=
  match bs, fuel with
  | [], _ => Some m
  | _, O => None
  | _, S fuel' =>
      match wireVarint 10 bs 0 0 with
      | None => None
      | Some (key, r) =>
          let field := Z.shiftr key 3 in
          if field =? 0 then None
          else
            match Z.land key 7 with
            | 0 =>
                match wireVarint 10 r 0 0 with
                | None => None
                | Some (x, r') =>
                    wireFields fuel' r'
                      (if field =? 3 then mkWire (video_id m) (to_int32 x) (lmt m)
                       else if field =? 4 then mkWire (video_id m) (itag m) (to_int64 x)
                       else m)
                end
            | 1 =>
                match wireSkip 8 r with
                | None => None
                | Some r' => wireFields fuel' r' m
                end
            | 2 =>
                match wireVarint 10 r 0 0 with
                | None => None
                | Some (n, r') =>
                    match wireSkip n r' with
                    | None => None
                    | Some r'' =>
                        wireFields fuel' r''
                          (if field =? 2 then
                             mkWire (string_of_list_byte (firstn (Z.to_nat n) r'))
                                    (itag m) (lmt m)
                           else m)
                    end
                end
            | 5 =>
                match wireSkip 4 r with
                | None => None
                | Some r' => wireFields fuel' r' m
                end
            | _ => None
            end
      end
  end.

(** Modelled from the spec: the decoder of the header wire format, which
    fails on a payload that is not a sequence of fields. *)
Definition wireUnmarshal (payload : list byte)
  : option error * WireMediaHeader :=
  let zero := mkWire EmptyString 0 0 in
  match wireFields (length payload) payload zero with
  | Some m => (None, m)
  | None => (Some (ErrProto "cannot parse invalid wire-format data"), zero)
  end.

(** Modelled from the spec: the header message of part 20 with its three
    addressable fields, as an instance of the interface the parser uses. *)
Definition wireProto : MediaHeaderProto := {|
  ProtoMediaHeader := WireMediaHeader;
  Unmarshal := wireUnmarshal;
  GetVideoId := video_id;
  GetItag := itag;
  GetLmt := lmt
|}.

(** ** The encoding table of the varint, as the documentation gives it *)

(** The number of leading 1-bits of a byte, counted from bit 7 down. *)
Fixpoint leadingOnes_from (n : nat) (bit : Z) (x : Z) : Z :=
  match n with
  | O => 0
  | S n' => if Z.testbit x bit then 1 + leadingOnes_from n' (bit - 1) x else 0
  end.

Definition leadingOnes (b : byte) : Z := leadingOnes_from 8 7 (int_of_byte b).

(** The [i]-th byte of an encoding, as an unsigned number. *)
Definition byteAt (enc : list byte) (i : nat) : Z := int_of_byte (nth i enc x00).

(** Total size by the number of leading 1-bits of byte 0; none for five. *)
Definition tableSize (ones : Z) : option Z :=
  if ones <=? 4 then Some (ones + 1) else None.

(** Value construction by the number of leading 1-bits of byte 0. *)
Definition tableValue (enc : list byte) : Z :=
  match leadingOnes (nth 0 enc x00) with
  | 0 => byteAt enc 0
  | 1 => Z.lor (Z.land (byteAt enc 0) 0x3F) (Z.shiftl (byteAt enc 1) 6)
  | 2 => Z.lor (Z.lor (Z.land (byteAt enc 0) 0x1F) (Z.shiftl (byteAt enc 1) 5))
               (Z.shiftl (byteAt enc 2) 13)
  | 3 => Z.lor (Z.lor (Z.lor (Z.land (byteAt enc 0) 0x0F)
                             (Z.shiftl (byteAt enc 1) 4))
                      (Z.shiftl (byteAt enc 2) 12))
               (Z.shiftl (byteAt enc 3) 20)
  | 4 => Z.lor (Z.lor (Z.lor (byteAt enc 1) (Z.shiftl (byteAt enc 2) 8))
                      (Z.shiftl (byteAt enc 3) 16))
               (Z.shiftl (byteAt enc 4) 24)
  | _ => 0
  end.

(** The continuation bytes read as one number, least significant byte
    first. *)
Fixpoint littleEndian (bs : list byte) : Z :=
  match bs with
  | [] => 0
  | b :: bs' => int_of_byte b + 256 * littleEndian bs'
  end.

(** The number of low bits of byte 0 that enter the value: the bits below
    the leading 1-bits and the 0-bit that ends them, and none of them in
    the five-byte class. *)
Definition lowBits (ones : Z) : Z := if ones =? 4 then 0 else 7 - ones.

(** What a call of [readVarInt] at a cursor inside or at the end of the
    slice does: it never panics, and it either fails and leaves the cursor
    where it was or succeeds and moves it forward inside the slice. *)
Inductive readVarInt_outcome (data : list byte) (off : Z)
  : run ((Z * option error) * Z) -> Prop :=
| RV_no_data :
    off >= len data ->
    readVarInt_outcome data off (Done ((0, Some ErrNoDataAvailable), off))
| RV_invalid first :
    index data off = Done first -> getVarIntSize first = 0 ->
    readVarInt_outcome data off (Done ((0, Some (ErrInvalidVarint off)), off))
| RV_incomplete first :
    index data off = Done first -> getVarIntSize first <> 0 ->
    off + getVarIntSize first > len data ->
    readVarInt_outcome data off (Done ((0, Some ErrIncompleteVarint), off))
| RV_value first v :
    index data off = Done first -> 1 <= getVarIntSize first <= 5 ->
    off + getVarIntSize first <= len data ->
    0 <= v < 2 ^ 32 ->
    readVarInt_outcome data off (Done ((v, None), off + getVarIntSize first)).

(** ** A stream of complete parts *)

(** [framed data ps]: [data] is the concatenation of the parts [ps], each
    one a varint that decodes to the type, a varint that decodes to the
    payload length, and the payload. *)
Inductive framed : list byte -> list (Z * list byte) -> Prop :=
| framed_nil : framed [] []
| framed_cons tb lb ty payload rest ps :
    readVarInt tb 0 = Done ((ty, None), len tb) ->
    readVarInt lb 0 = Done ((len payload, None), len lb) ->
    framed rest ps ->
    framed (tb ++ lb ++ payload ++ rest) ((ty, payload) :: ps).

(** [stalled tail left]: a buffer end on which the loop, with its cursor at
    the start of [tail], stops without handling a part: the type does not
    decode, or the length does not, or the payload is shorter than the
    length.  [left] is the part of [tail] from the cursor the loop stops
    with. *)
Inductive stalled : list byte -> list byte -> Prop :=
| stalled_type tail v e o :
    readVarInt tail 0 = Done ((v, Some e), o) ->
    stalled tail tail
| stalled_length tb ty r v e o :
    readVarInt tb 0 = Done ((ty, None), len tb) ->
    readVarInt r 0 = Done ((v, Some e), o) ->
    stalled (tb ++ r) r
| stalled_payload tb ty lb n partial :
    readVarInt tb 0 = Done ((ty, None), len tb) ->
    readVarInt lb 0 = Done ((n, None), len lb) ->
    len partial < n ->
    stalled (tb ++ lb ++ partial) partial.

(** A part reaches the dispatch on its type when its payload is not empty;
    [dispatched ty p] selects the parts of type [ty] that do. *)
Definition dispatched (ty : Z) (p : Z * list byte) : bool :=
  (fst p =? ty) && negb (len (snd p) =? 0).

(** The payloads of the media parts of a stream, one after the other. *)
Definition mediaPayloads (ps : list (Z * list byte)) : list byte :=
  concat (map snd (filter (dispatched 21) ps)).

(** A payload without its leading zero byte, when it has one. *)
Definition stripLeadingZero (payload : list byte) : list byte :=
  match payload with
  | b :: rest => if int_of_byte b =? 0 then rest else payload
  | [] => []
  end.

(** The loop variables a loop exit carries. *)
Definition exitVars (e : loopExit) : loopVars :=
  match e with
  | Break v | Return _ v => v
  end.

(** The parts the dispatch acts on: header and media parts with a payload. *)
Definition relevantPart (p : Z * list byte) : bool :=
  dispatched 20 p || dispatched 21 p.

Section Parts.

Context {codec : MediaHeaderProto}.

(** The header, accumulator and flag after the loop body has handled one
    complete part, or the error it returns with. *)
Definition partEffect (ty : Z) (payload : list byte)
    (st : option UMPMediaHeader * list byte * bool)
  : error + option UMPMediaHeader * list byte * bool :=
  let '(hdr, acc, first) := st in
  match payload with
  | [] => inr st
  | b :: rest =>
      match (if ty =? 20 then
               match headerPart payload with
               | inl e => inl e
               | inr h => inr (Some h)
               end
             else inr hdr) with
      | inl e => inl e
      | inr hdr' =>
          if ty =? 21 then
            inr (hdr',
                 if negb first && (int_of_byte b =? 0) then acc ++ rest
                 else acc ++ payload,
                 true)
          else inr (hdr', acc, first)
      end
  end.

Fixpoint runParts (ps : list (Z * list byte))
    (st : option UMPMediaHeader * list byte * bool)
  : error + option UMPMediaHeader * list byte * bool :=
  match ps with
  | [] => inr st
  | (ty, payload) :: ps' =>
      match partEffect ty payload st with
      | inl e => inl e
      | inr st' => runParts ps' st'
      end
  end.

(** Every header part of the stream that is dispatched decodes. *)
Definition headersDecode (ps : list (Z * list byte)) : Prop :=
  Forall (fun p => dispatched 20 p = true ->
                   exists h, headerPart (snd p) = inr h) ps.

End Parts.

(** * Properties *)

(** ** Slices *)

Lemma len_app {A : Type} (l1 l2 : list A) : len (l1 ++ l2) = len l1 + len l2.
Proof. unfold len. rewrite length_app. lia. Qed.

Lemma len_nonneg {A : Type} (l : list A) : 0 <= len l.
Proof. unfold len. lia. Qed.

Lemma index_in_range (data : list byte) (i : Z) :
  0 <= i < len data -> exists b, index data i = Done b.
Proof.
  intros Hi. unfold index.
  replace ((0 <=? i) && (i <? len data)) with true
    by (symmetry; apply andb_true_iff; split; [apply Z.leb_le | apply Z.ltb_lt]; lia).
  destruct (nth_error data (Z.to_nat i)) as [b|] eqn:E; [now exists b|].
  apply nth_error_None in E. unfold len in Hi. lia.
Qed.

Lemma index_Done (data : list byte) (i : Z) (b : byte) :
  index data i = Done b <->
  0 <= i < len data /\ nth_error data (Z.to_nat i) = Some b.
Proof.
  unfold index. split.
  - destruct ((0 <=? i) && (i <? len data)) eqn:E; [|discriminate].
    apply andb_true_iff in E. destruct E as [E1 E2].
    apply Z.leb_le in E1. apply Z.ltb_lt in E2.
    destruct (nth_error data (Z.to_nat i)); [|discriminate].
    intros [= ->]. auto.
  - intros [Hi ->].
    replace ((0 <=? i) && (i <? len data)) with true; [reflexivity|].
    symmetry; apply andb_true_iff; split; [apply Z.leb_le | apply Z.ltb_lt]; lia.
Qed.

Lemma index_app_r (pre data : list byte) (i : Z) (b : byte) :
  index data i = Done b -> index (pre ++ data) (len pre + i) = Done b.
Proof.
  rewrite !index_Done, len_app. intros [Hi Hn]. split; [pose proof (len_nonneg pre); lia|].
  rewrite nth_error_app2 by (unfold len; lia).
  rewrite <- Hn. f_equal. unfold len. lia.
Qed.

Lemma index_app_l (data post : list byte) (i : Z) (b : byte) :
  index data i = Done b -> index (data ++ post) i = Done b.
Proof.
  rewrite !index_Done, len_app. intros [Hi Hn]. split; [pose proof (len_nonneg post); lia|].
  rewrite nth_error_app1 by (unfold len in Hi; lia). exact Hn.
Qed.

Lemma index_nth (enc : list byte) (i : nat) :
  Z.of_nat i < len enc -> index enc (Z.of_nat i) = Done (nth i enc x00).
Proof.
  intros Hi. apply index_Done. split; [lia|].
  rewrite Nat2Z.id. apply nth_error_nth'. unfold len in Hi. lia.
Qed.

(** ** Varint codec *)

Lemma getVarIntSize_cases (b : byte) :
  getVarIntSize b = 0 \/ getVarIntSize b = 1 \/ getVarIntSize b = 2 \/
  getVarIntSize b = 3 \/ getVarIntSize b = 4 \/ getVarIntSize b = 5.
Proof. destruct b; vm_compute; tauto. Qed.

(** The size is the number of leading 1-bits plus one, and zero when all
    five top bits are set. *)
Lemma getVarIntSize_leadingOnes (b : byte) :
  getVarIntSize b = if leadingOnes b <=? 4 then leadingOnes b + 1 else 0.
Proof. destruct b; vm_compute; reflexivity. Qed.

Lemma leadingOnes_range (b : byte) : 0 <= leadingOnes b <= 8.
Proof. destruct b; vm_compute; split; congruence. Qed.

Lemma int_of_byte_range (b : byte) : 0 <= int_of_byte b < 256.
Proof. destruct b; vm_compute; split; congruence. Qed.

Lemma lor_below (n a b : Z) :
  0 <= n -> 0 <= a < 2 ^ n -> 0 <= b < 2 ^ n -> 0 <= Z.lor a b < 2 ^ n.
Proof.
  intros Hn Ha Hb. split; [apply Z.lor_nonneg; lia|].
  destruct (Z.eq_dec (Z.lor a b) 0) as [->|Hz]; [lia|].
  assert (0 < Z.lor a b) by (pose proof (proj2 (Z.lor_nonneg a b)); lia).
  assert (0 < n).
  { destruct (Z.eq_dec n 0) as [->|]; [|lia].
    assert (a = 0) by (change (2 ^ 0) with 1 in Ha; lia).
    assert (b = 0) by (change (2 ^ 0) with 1 in Hb; lia).
    subst. now contradiction Hz. }
  apply Z.log2_lt_pow2; [lia|]. rewrite Z.log2_lor by lia.
  apply Z.max_lub_lt.
  - destruct (Z.eq_dec a 0) as [->|]; [simpl; lia|]. apply Z.log2_lt_pow2; lia.
  - destruct (Z.eq_dec b 0) as [->|]; [simpl; lia|]. apply Z.log2_lt_pow2; lia.
Qed.

Lemma shiftl_byte_below (b : byte) (k : Z) :
  0 <= k <= 24 -> 0 <= Z.shiftl (int_of_byte b) k < 2 ^ 32.
Proof.
  intros Hk. pose proof (int_of_byte_range b) as Hb.
  rewrite Z.shiftl_mul_pow2 by lia.
  assert (0 < 2 ^ k) by (apply Z.pow_pos_nonneg; lia).
  assert (2 ^ k <= 2 ^ 24) by (apply Z.pow_le_mono_r; lia).
  change (2 ^ 32) with (256 * 2 ^ 24). nia.
Qed.

Lemma land_byte_below (b : byte) (m : Z) :
  0 <= m -> 0 <= Z.land (int_of_byte b) m < 2 ^ 32.
Proof.
  intros Hm. pose proof (int_of_byte_range b) as Hb.
  split; [apply Z.land_nonneg; lia|].
  destruct (Z.eq_dec (Z.land (int_of_byte b) m) 0) as [->|Hz]; [reflexivity|].
  assert (0 < Z.land (int_of_byte b) m)
    by (pose proof (proj2 (Z.land_nonneg (int_of_byte b) m)); lia).
  assert (int_of_byte b <> 0) by (intros E; rewrite E, Z.land_0_l in Hz; lia).
  apply Z.log2_lt_pow2; [lia|].
  pose proof (Z.log2_land (int_of_byte b) m).
  assert (Z.log2 (int_of_byte b) < 8) by (apply Z.log2_lt_pow2; lia).
  lia.
Qed.

Lemma byte_below (b : byte) : 0 <= int_of_byte b < 2 ^ 32.
Proof. pose proof (int_of_byte_range b). change (2 ^ 32) with 4294967296. lia. Qed.

Lemma readVarInt_outcome_holds (data : list byte) (off : Z) :
  0 <= off -> readVarInt_outcome data off (readVarInt data off).
Proof.
  intros Hoff. unfold readVarInt.
  destruct (off >=? len data) eqn:E0.
  { constructor. apply Z.geb_le in E0. lia. }
  assert (Hlt : off < len data).
  { destruct (Z.geb_spec off (len data)); [discriminate | lia]. }
  destruct (index_in_range data off) as [first Hfirst]; [lia|].
  rewrite Hfirst. cbn [bind].
  destruct (getVarIntSize first =? 0) eqn:E1.
  { apply Z.eqb_eq in E1. now apply RV_invalid with first. }
  apply Z.eqb_neq in E1.
  destruct (off + getVarIntSize first >? len data) eqn:E2.
  { apply RV_incomplete with first; auto.
    destruct (Z.gtb_spec (off + getVarIntSize first) (len data)); [lia | discriminate]. }
  assert (Hfit : off + getVarIntSize first <= len data).
  { destruct (Z.gtb_spec (off + getVarIntSize first) (len data)); [discriminate | lia]. }
  assert (Hidx : forall k, 0 <= k < getVarIntSize first ->
                           exists b, index data (off + k) = Done b).
  { intros k Hk. apply index_in_range. lia. }
  pose proof (byte_below first) as Hb0.
  assert (Hval : forall k v, getVarIntSize first = k -> 0 <= v < 2 ^ 32 ->
            readVarInt_outcome data off (Done ((v, None), off + k))).
  { intros k v Hk Hv. rewrite <- Hk.
    pose proof (getVarIntSize_cases first). apply RV_value; auto; lia. }
  destruct (getVarIntSize_cases first) as [S|[S|[S|[S|[S|S]]]]];
    [congruence | | | | | ]; rewrite S in Hidx |- *.
  - cbn [bind]. now apply Hval.
  - destruct (Hidx 1) as [b1 H1]; [lia|]. rewrite H1. cbn [bind].
    apply Hval; [assumption|].
    apply lor_below; [lia | apply land_byte_below; lia | apply shiftl_byte_below; lia].
  - destruct (Hidx 1) as [b1 H1]; [lia|]. destruct (Hidx 2) as [b2 H2]; [lia|].
    rewrite H1, H2. cbn [bind]. apply Hval; [assumption|].
    repeat apply lor_below; try lia;
      try (apply land_byte_below; lia); apply shiftl_byte_below; lia.
  - destruct (Hidx 1) as [b1 H1]; [lia|]. destruct (Hidx 2) as [b2 H2]; [lia|].
    destruct (Hidx 3) as [b3 H3]; [lia|].
    rewrite H1, H2, H3. cbn [bind]. apply Hval; [assumption|].
    repeat apply lor_below; try lia;
      try (apply land_byte_below; lia); apply shiftl_byte_below; lia.
  - destruct (Hidx 1) as [b1 H1]; [lia|]. destruct (Hidx 2) as [b2 H2]; [lia|].
    destruct (Hidx 3) as [b3 H3]; [lia|]. destruct (Hidx 4) as [b4 H4]; [lia|].
    rewrite H1, H2, H3, H4. cbn [bind]. apply Hval; [assumption|].
    repeat apply lor_below; try lia;
      try apply byte_below; apply shiftl_byte_below; lia.
Qed.

Lemma readVarInt_value_bound (data : list byte) (off v off' : Z) :
  0 <= off -> readVarInt data off = Done ((v, None), off') -> 0 <= v < 2 ^ 32.
Proof.
  intros Hoff E. pose proof (readVarInt_outcome_holds data off Hoff) as H.
  rewrite E in H. inversion H; subst; assumption.
Qed.

Lemma readVarInt_ok_advances (data : list byte) (off v off' : Z) :
  0 <= off -> readVarInt data off = Done ((v, None), off') ->
  off + 1 <= off' <= len data.
Proof.
  intros Hoff E. pose proof (readVarInt_outcome_holds data off Hoff) as H.
  rewrite E in H. inversion H; subst; lia.
Qed.

Lemma readVarInt_err_keeps (data : list byte) (off v off' : Z) (e : error) :
  0 <= off -> readVarInt data off = Done ((v, Some e), off') -> off' = off.
Proof.
  intros Hoff E. pose proof (readVarInt_outcome_holds data off Hoff) as H.
  rewrite E in H. inversion H; subst; reflexivity.
Qed.

Lemma index_middle (pre enc post : list byte) (k : nat) :
  Z.of_nat k < len enc ->
  index (pre ++ enc ++ post) (len pre + Z.of_nat k) = Done (nth k enc x00).
Proof.
  intros Hk. apply index_app_r, index_app_l, index_nth, Hk.
Qed.

(** The decoder against the encoding table, for an encoding that lies
    anywhere in a slice. *)
Lemma readVarInt_table_at (pre enc post : list byte) (b0 : byte) (size : Z) :
  nth_error enc 0 = Some b0 ->
  tableSize (leadingOnes b0) = Some size ->
  len enc = size ->
  size = leadingOnes b0 + 1 /\
  readVarInt (pre ++ enc ++ post) (len pre)
  = Done ((tableValue enc, None), len pre + size).
Proof.
  intros Hb0 Hsize Hlen. unfold tableSize in Hsize.
  destruct (leadingOnes b0 <=? 4) eqn:Hones; [|discriminate].
  injection Hsize as Hsize. split; [lia|].
  pose proof (getVarIntSize_leadingOnes b0) as Hgv. rewrite Hones in Hgv.
  assert (Hn0 : nth 0 enc x00 = b0).
  { destruct enc; [discriminate|]. now injection Hb0. }
  assert (Hidx : forall k, Z.of_nat k < len enc ->
            index (pre ++ enc ++ post) (len pre + Z.of_nat k) = Done (nth k enc x00))
    by (intros; now apply index_middle).
  pose proof (len_nonneg pre) as Hpre. pose proof (len_nonneg post) as Hpost.
  pose proof (leadingOnes_range b0) as Hrange. apply Z.leb_le in Hones.
  unfold readVarInt.
  replace (len pre >=? len (pre ++ enc ++ post)) with false
    by (symmetry; rewrite !len_app; destruct (Z.geb_spec (len pre) (len pre + (len enc + len post)));
        [lia | reflexivity]).
  assert (H0 := Hidx 0%nat). rewrite Z.add_0_r, Hn0 in H0.
  rewrite H0 by lia. cbn [bind].
  replace (getVarIntSize b0 =? 0) with false
    by (symmetry; apply Z.eqb_neq; lia).
  replace (len pre + getVarIntSize b0 >? len (pre ++ enc ++ post)) with false
    by (symmetry; rewrite !len_app;
        destruct (Z.gtb_spec (len pre + getVarIntSize b0) (len pre + (len enc + len post)));
        [lia | reflexivity]).
  unfold tableValue, byteAt. rewrite Hn0.
  assert (Hones' : leadingOnes b0 = 0 \/ leadingOnes b0 = 1 \/ leadingOnes b0 = 2 \/
                   leadingOnes b0 = 3 \/ leadingOnes b0 = 4) by lia.
  clear Hrange Hones.
  pose proof (Hidx 1%nat) as H1. pose proof (Hidx 2%nat) as H2.
  pose proof (Hidx 3%nat) as H3. pose proof (Hidx 4%nat) as H4.
  change (Z.of_nat 1) with 1 in H1. change (Z.of_nat 2) with 2 in H2.
  change (Z.of_nat 3) with 3 in H3. change (Z.of_nat 4) with 4 in H4.
  destruct Hones' as [L|[L|[L|[L|L]]]]; rewrite L in Hgv, Hsize |- *;
    rewrite Hgv; cbn [Z.add Pos.add Pos.succ];
    rewrite ?H1, ?H2, ?H3, ?H4 by lia;
    cbn [bind]; subst size; reflexivity.
Qed.

Lemma lor_shiftl_add (x y k : Z) :
  0 <= k -> 0 <= x < 2 ^ k -> 0 <= y -> Z.lor x (Z.shiftl y k) = x + y * 2 ^ k.
Proof.
  intros Hk Hx Hy.
  assert (Hland : Z.land x (Z.shiftl y k) = 0).
  { apply Z.bits_inj'. intros n Hn. rewrite Z.land_spec, Z.bits_0.
    destruct (Z.lt_ge_cases n k) as [Hlt|Hge].
    - rewrite (Z.shiftl_spec_low y k n Hlt). apply andb_false_r.
    - replace (Z.testbit x n) with false; [reflexivity|].
      symmetry. destruct (Z.eq_dec x 0) as [->|Hx0]; [apply Z.bits_0|].
      apply Z.bits_above_log2; [lia|].
      assert (Z.log2 x < k) by (apply Z.log2_lt_pow2; lia). lia. }
  rewrite <- Z.lxor_lor by exact Hland.
  rewrite <- Z.add_nocarry_lxor by exact Hland.
  now rewrite Z.shiftl_mul_pow2.
Qed.

Lemma leadingOnes_0_below (b : byte) : leadingOnes b = 0 -> int_of_byte b < 128.
Proof. destruct b; vm_compute; intros H; try discriminate H; reflexivity. Qed.

(** The value of the table is the low bits of byte 0 with the continuation
    bytes, least significant first, above them. *)
Lemma tableValue_little_endian (enc : list byte) (b0 : byte) :
  nth_error enc 0 = Some b0 ->
  tableSize (leadingOnes b0) = Some (len enc) ->
  tableValue enc
  = int_of_byte b0 mod 2 ^ lowBits (leadingOnes b0)
    + 2 ^ lowBits (leadingOnes b0) * littleEndian (tl enc).
Proof.
  intros Hb0 Hsize. unfold tableSize in Hsize.
  pose proof (leadingOnes_range b0) as Hrange.
  destruct (Z.leb_spec (leadingOnes b0) 4) as [Hones|]; [|discriminate].
  injection Hsize as Hsize.
  destruct enc as [|c0 enc]; [discriminate|]. injection Hb0 as ->.
  unfold tableValue, byteAt. cbn [nth tl].
  pose proof (int_of_byte_range b0) as R0.
  assert (Hones' : leadingOnes b0 = 0 \/ leadingOnes b0 = 1 \/ leadingOnes b0 = 2 \/
                   leadingOnes b0 = 3 \/ leadingOnes b0 = 4) by lia.
  unfold len in Hsize.
  destruct Hones' as [L|[L|[L|[L|L]]]]; rewrite L in Hsize |- *; cbv iota;
    [change (lowBits 0) with 7 | change (lowBits 1) with 6 | change (lowBits 2) with 5
     | change (lowBits 3) with 4 | change (lowBits 4) with 0].
  - destruct enc; [|cbn [length] in Hsize; lia]. cbn [littleEndian].
    pose proof (leadingOnes_0_below b0 L). rewrite Z.mod_small by lia. lia.
  - destruct enc as [|c1 [|? ?]]; cbn [length] in Hsize; try lia.
    cbn [nth littleEndian]. pose proof (int_of_byte_range c1).
    change 63 with (Z.ones 6). rewrite Z.land_ones by lia.
    pose proof (Z.mod_pos_bound (int_of_byte b0) (2 ^ 6) eq_refl).
    rewrite lor_shiftl_add by lia. lia.
  - destruct enc as [|c1 [|c2 [|? ?]]]; cbn [length] in Hsize; try lia.
    cbn [nth littleEndian].
    pose proof (int_of_byte_range c1). pose proof (int_of_byte_range c2).
    change 31 with (Z.ones 5). rewrite Z.land_ones by lia.
    pose proof (Z.mod_pos_bound (int_of_byte b0) (2 ^ 5) eq_refl).
    rewrite (lor_shiftl_add _ _ 5) by lia.
    rewrite (lor_shiftl_add _ _ 13) by lia. lia.
  - destruct enc as [|c1 [|c2 [|c3 [|? ?]]]]; cbn [length] in Hsize; try lia.
    cbn [nth littleEndian].
    pose proof (int_of_byte_range c1). pose proof (int_of_byte_range c2).
    pose proof (int_of_byte_range c3).
    change 15 with (Z.ones 4). rewrite Z.land_ones by lia.
    pose proof (Z.mod_pos_bound (int_of_byte b0) (2 ^ 4) eq_refl).
    rewrite (lor_shiftl_add _ _ 4) by lia.
    rewrite (lor_shiftl_add _ _ 12) by lia.
    rewrite (lor_shiftl_add _ _ 20) by lia. lia.
  - destruct enc as [|c1 [|c2 [|c3 [|c4 [|? ?]]]]]; cbn [length] in Hsize; try lia.
    cbn [nth littleEndian].
    pose proof (int_of_byte_range c1). pose proof (int_of_byte_range c2).
    pose proof (int_of_byte_range c3). pose proof (int_of_byte_range c4).
    rewrite (lor_shiftl_add _ _ 8) by lia.
    rewrite (lor_shiftl_add _ _ 16) by lia.
    rewrite (lor_shiftl_add _ _ 24) by lia.
    change (2 ^ 0) with 1. rewrite Z.mod_1_r. lia.
Qed.

(** C6: for every valid encoding of each of the five size classes, wherever
    it lies in the slice, [readVarInt] returns the value the encoding table
    builds for the number of leading 1-bits of byte 0, without error, and
    moves the cursor forward by exactly the size the table gives for that
    number, which is the number of leading 1-bits plus one.  That value is
    the low bits of byte 0 (none of them in the 5-byte class) with the
    continuation bytes above them, least significant byte first. *)
Theorem readVarInt_encoding_table (pre enc post : list byte) (b0 : byte) (size : Z) :
  nth_error enc 0 = Some b0 ->
  tableSize (leadingOnes b0) = Some size ->
  len enc = size ->
  size = leadingOnes b0 + 1 /\
  readVarInt (pre ++ enc ++ post) (len pre)
  = Done ((tableValue enc, None), len pre + size) /\
  tableValue enc
  = int_of_byte b0 mod 2 ^ lowBits (leadingOnes b0)
    + 2 ^ lowBits (leadingOnes b0) * littleEndian (tl enc).
Proof.
  intros Hb0 Hsize Hlen.
  destruct (readVarInt_table_at pre enc post b0 size Hb0 Hsize Hlen) as [H1 H2].
  repeat split; [exact H1 | exact H2 |].
  apply tableValue_little_endian; [exact Hb0 | now rewrite Hlen].
Qed.

Lemma readVarInt_encoding_table_witness :
  3 = leadingOnes xc1 + 1 /\
  readVarInt ([x15] ++ [xc1; x02; x03] ++ [x00]) (len [x15])
  = Done ((tableValue [xc1; x02; x03], None), len [x15] + 3) /\
  tableValue [xc1; x02; x03]
  = int_of_byte xc1 mod 2 ^ lowBits (leadingOnes xc1)
    + 2 ^ lowBits (leadingOnes xc1) * littleEndian (tl [xc1; x02; x03]).
Proof.
  apply (readVarInt_encoding_table [x15] [xc1; x02; x03] [x00] xc1 3);
    reflexivity.
Defined.

(** C7: at every cursor of every slice the decoder stays inside the slice
    (no read panics, a successful read ends at or before the bound); a
    slice that ends before the size implied by the first byte, or before
    the first byte, gives an insufficient-data error, which is not the
    malformed-varint error; a failure leaves the cursor where it was and
    returns the value 0; the cursor moves, forward, only on success. *)
Theorem readVarInt_stays_in_bounds (data : list byte) (off : Z) :
  0 <= off ->
  exists v err off',
    readVarInt data off = Done ((v, err), off') /\
    (forall e, err = Some e -> off' = off /\ v = 0) /\
    (err = None -> off < off' <= len data) /\
    (off' <> off -> err = None) /\
    (len data <= off -> err = Some ErrNoDataAvailable) /\
    (forall first, index data off = Done first ->
       getVarIntSize first <> 0 -> len data < off + getVarIntSize first ->
       err = Some ErrIncompleteVarint) /\
    (forall first, index data off = Done first ->
       getVarIntSize first = 0 -> err = Some (ErrInvalidVarint off)) /\
    (forall e, err = Some e ->
       isInsufficientData e = negb (isMalformedVarint e)).
Proof.
  intros Hoff. pose proof (readVarInt_outcome_holds data off Hoff) as H.
  inversion H as [Hge E | first Hf Hs E | first Hf Hs Hgt E | first v Hf Hs Hle Hv E];
    do 3 eexists; (split; [reflexivity|]);
    repeat split; intros;
    repeat match goal with
      | H1 : index ?d ?o = Done ?a, H2 : index ?d ?o = Done ?b |- _ =>
          assert (a = b) by congruence; subst b; clear H2
      end;
    try match goal with
      | H1 : index _ _ = Done _ |- _ => apply index_Done in H1
      end;
    try match goal with
      | H1 : Some _ = Some _ |- _ => injection H1 as <-
      end;
    try reflexivity; try congruence; try lia.
Qed.

Lemma readVarInt_stays_in_bounds_witness :
  exists v err off',
    readVarInt [x15; xc1; x02] 1 = Done ((v, err), off') /\
    (forall e, err = Some e -> off' = 1 /\ v = 0) /\
    (err = None -> 1 < off' <= len [x15; xc1; x02]) /\
    (off' <> 1 -> err = None) /\
    (len [x15; xc1; x02] <= 1 -> err = Some ErrNoDataAvailable) /\
    (forall first, index [x15; xc1; x02] 1 = Done first ->
       getVarIntSize first <> 0 ->
       len [x15; xc1; x02] < 1 + getVarIntSize first ->
       err = Some ErrIncompleteVarint) /\
    (forall first, index [x15; xc1; x02] 1 = Done first ->
       getVarIntSize first = 0 -> err = Some (ErrInvalidVarint 1)) /\
    (forall e, err = Some e ->
       isInsufficientData e = negb (isMalformedVarint e)).
Proof. apply (readVarInt_stays_in_bounds [x15; xc1; x02] 1). lia. Defined.

(** A varint that decodes on its own decodes to the same value wherever
    its bytes lie in a larger slice. *)
Lemma readVarInt_framed (pre enc post : list byte) (v : Z) :
  readVarInt enc 0 = Done ((v, None), len enc) ->
  readVarInt (pre ++ enc ++ post) (len pre) = Done ((v, None), len pre + len enc).
Proof.
  intros E. pose proof (readVarInt_outcome_holds enc 0 (Z.le_refl 0)) as H.
  rewrite E in H.
  inversion H as [ | | | first v' Hf Hs Hle Hv [Ev Eo]]. subst v'.
  apply index_Done in Hf. destruct Hf as [_ Hf]. change (Z.to_nat 0) with 0%nat in Hf.
  assert (Hsz : getVarIntSize first = len enc) by lia.
  assert (Ht : tableSize (leadingOnes first) = Some (len enc)).
  { pose proof (getVarIntSize_leadingOnes first) as G. unfold tableSize.
    destruct (leadingOnes first <=? 4); [f_equal; lia | lia]. }
  destruct (readVarInt_table_at [] enc [] first (len enc) Hf Ht eq_refl) as [_ E0].
  cbn [app] in E0. rewrite app_nil_r in E0. change (len []) with 0 in E0.
  rewrite E in E0. injection E0 as ->.
  destruct (readVarInt_table_at pre enc post first (len enc) Hf Ht eq_refl) as [_ ->].
  now rewrite Hsz.
Qed.

Lemma slice_middle (a p r : list byte) :
  slice (a ++ p ++ r) (len a) (len a + len p) = Done p.
Proof.
  unfold slice.
  pose proof (len_nonneg a). pose proof (len_nonneg p). pose proof (len_nonneg r).
  replace ((0 <=? len a) && (len a <=? len a + len p) &&
           (len a + len p <=? len (a ++ p ++ r))) with true.
  - f_equal. unfold len. rewrite Nat2Z.id.
    rewrite skipn_app, skipn_all, Nat.sub_diag. cbn [skipn app].
    replace (Z.to_nat _) with (length p) by lia.
    rewrite firstn_app, firstn_all, Nat.sub_diag. cbn [firstn]. apply app_nil_r.
  - symmetry. rewrite !len_app. rewrite !andb_true_iff, !Z.leb_le. lia.
Qed.

(** ** Stream state machine *)

Section ParserProperties.

Context {codec : MediaHeaderProto}.

Lemma mediaPart_cons (b : byte) (rest acc : list byte) (first : bool) :
  mediaPart (b :: rest) acc first
  = Done ((if negb first && (int_of_byte b =? 0) then acc ++ rest
           else acc ++ b :: rest), true).
Proof.
  unfold mediaPart.
  assert (Hlen : (len (b :: rest) >? 0) = true).
  { pose proof (len_nonneg rest). unfold len in *. cbn [length].
    destruct (Z.gtb_spec (Z.of_nat (S (length rest))) 0); [reflexivity | lia]. }
  rewrite Hlen, andb_true_r.
  assert (Hsl : slice (b :: rest) 1 (len (b :: rest)) = Done rest).
  { pose proof (slice_middle [b] rest []) as S. rewrite app_nil_r in S.
    replace (len [b] + len rest) with (len (b :: rest)) in S
      by (unfold len; cbn [length]; lia).
    exact S. }
  destruct first; cbn [negb andb bind].
  - reflexivity.
  - assert (Hi : index (b :: rest) 0 = Done b).
    { apply index_Done. split; [|reflexivity].
      pose proof (len_nonneg rest). unfold len in *. cbn [length]. lia. }
    rewrite Hi. cbn [bind]. destruct (int_of_byte b =? 0); cbn [bind].
    + rewrite Hsl. reflexivity.
    + reflexivity.
Qed.

(** One turn of the loop on a complete part that starts at the cursor. *)
Lemma parseLoop_part (fuel : nat) (pre tb lb payload rest : list byte)
    (ty : Z) (v : loopVars) :
  readVarInt tb 0 = Done ((ty, None), len tb) ->
  readVarInt lb 0 = Done ((len payload, None), len lb) ->
  offset v = len pre ->
  parseLoop (S fuel) (pre ++ tb ++ lb ++ payload ++ rest) v
  = match partEffect ty payload (umpHeader v, accV v, firstV v) with
    | inl e =>
        Done (Return e (mkVars (len pre + len tb + len lb)
                               (umpHeader v) (accV v) (firstV v)))
    | inr (hdr, acc, first) =>
        parseLoop fuel (pre ++ tb ++ lb ++ payload ++ rest)
          (mkVars (len pre + len tb + len lb + len payload) hdr acc first)
    end.
Proof.
  intros Ht Hl Hoff.
  pose proof (len_nonneg pre) as Hpre. pose proof (len_nonneg payload) as Hpay.
  pose proof (len_nonneg rest) as Hrest.
  pose proof (readVarInt_ok_advances _ _ _ _ (Z.le_refl 0) Ht) as Htb.
  pose proof (readVarInt_ok_advances _ _ _ _ (Z.le_refl 0) Hl) as Hlb.
  set (data := pre ++ tb ++ lb ++ payload ++ rest).
  assert (Hdata : len data = len pre + len tb + len lb + len payload + len rest)
    by (unfold data; rewrite !len_app; lia).
  cbn [parseLoop]. rewrite Hoff.
  replace (len pre >=? len data) with false
    by (symmetry; destruct (Z.geb_spec (len pre) (len data)); [lia | reflexivity]).
  (* the part type *)
  assert (E1 : readVarInt data (len pre) = Done ((ty, None), len pre + len tb))
    by (apply readVarInt_framed, Ht).
  rewrite E1. cbn [bind].
  (* the payload length *)
  assert (E2 : readVarInt data (len pre + len tb)
               = Done ((len payload, None), len pre + len tb + len lb)).
  { pose proof (readVarInt_framed (pre ++ tb) lb (payload ++ rest) _ Hl) as E.
    rewrite len_app, <- app_assoc in E. exact E. }
  rewrite E2. cbn [bind].
  destruct payload as [|b tl].
  - (* a zero-length part *)
    change (len []) with 0. cbn [partEffect Z.eqb]. now rewrite Z.add_0_r.
  - assert (Hpos : 0 < len (b :: tl)) by (unfold len; cbn [length]; lia).
    replace (len (b :: tl) =? 0) with false by (symmetry; apply Z.eqb_neq; lia).
    replace (len pre + len tb + len lb + len (b :: tl) >? len data) with false
      by (symmetry;
          destruct (Z.gtb_spec (len pre + len tb + len lb + len (b :: tl)) (len data));
          [lia | reflexivity]).
    assert (E3 : slice data (len pre + len tb + len lb)
                   (len pre + len tb + len lb + len (b :: tl)) = Done (b :: tl)).
    { pose proof (slice_middle ((pre ++ tb) ++ lb) (b :: tl) rest) as E.
      rewrite !len_app, <- !app_assoc in E. exact E. }
    rewrite E3. cbn [bind partEffect].
    destruct (ty =? 20) eqn:T20.
    + destruct (headerPart (b :: tl)) as [e|h]; [reflexivity|].
      destruct (ty =? 21) eqn:T21.
      * rewrite mediaPart_cons. reflexivity.
      * reflexivity.
    + destruct (ty =? 21) eqn:T21.
      * rewrite mediaPart_cons. reflexivity.
      * reflexivity.
Qed.

Lemma parseLoop_at_end (fuel : nat) (data : list byte) (v : loopVars) :
  len data <= offset v -> parseLoop (S fuel) data v = Done (Break v).
Proof.
  intros H. cbn [parseLoop].
  destruct (Z.geb_spec (offset v) (len data)); [reflexivity | lia].
Qed.

(** More fuel does not change a result. *)
Lemma parseLoop_mono (n : nat) :
  forall (m : nat) (data : list byte) (v : loopVars) (e : loopExit),
    parseLoop n data v = Done e -> (n <= m)%nat -> parseLoop m data v = Done e.
Proof.
  induction n as [|n IH]; intros m data v e H Hnm; [discriminate|].
  destruct m as [|m]; [lia|]. cbn [parseLoop] in *.
  destruct (offset v >=? len data); [exact H|].
  destruct (readVarInt data (offset v)) as [[[partType err1] offset1]| |];
    cbn [bind] in *; try discriminate.
  destruct err1; [exact H|].
  destruct (readVarInt data offset1) as [[[partSize err2] offset2]| |];
    cbn [bind] in *; try discriminate.
  destruct err2; [exact H|].
  destruct (partSize =? 0); [apply IH; [exact H | lia]|].
  destruct (offset2 + partSize >? len data); [exact H|].
  destruct (slice data offset2 (offset2 + partSize)) as [payload| |];
    cbn [bind] in *; try discriminate.
  destruct (if partType =? 20 then _ else _) as [err|hdr]; [exact H|].
  destruct (if partType =? 21 then _ else _) as [[acc first]| |];
    cbn [bind] in *; try discriminate.
  apply IH; [exact H | lia].
Qed.

Lemma slice_in_range (data : list byte) (lo hi : Z) :
  0 <= lo <= hi -> hi <= len data ->
  exists p, slice data lo hi = Done p /\ len p = hi - lo.
Proof.
  intros H1 H2. unfold slice.
  replace ((0 <=? lo) && (lo <=? hi) && (hi <=? len data)) with true
    by (symmetry; rewrite !andb_true_iff, !Z.leb_le; lia).
  eexists. split; [reflexivity|].
  unfold len in *. rewrite length_firstn, length_skipn. lia.
Qed.

(** The loop of [stateMachineParser] ends, without a panic, within as many
    turns as there are bytes after the cursor, and the cursor stays inside
    the buffer. *)
Lemma parseLoop_total (fuel : nat) :
  forall (data : list byte) (v : loopVars),
    0 <= offset v <= len data -> len data - offset v < Z.of_nat fuel ->
    exists e, parseLoop fuel data v = Done e /\
              match e with
              | Break v' | Return _ v' => offset v <= offset v' <= len data
              end.
Proof.
  induction fuel as [|fuel IH]; intros data v Hoff Hfuel; [lia|].
  cbn [parseLoop].
  destruct (Z.geb_spec (offset v) (len data)) as [Hge|Hlt].
  { eexists. split; [reflexivity|]. cbn. lia. }
  pose proof (readVarInt_outcome_holds data (offset v) (proj1 Hoff)) as R1.
  inversion R1 as [ ? E | ? ? ? E | ? ? ? ? E | first1 partType Hf1 Hs1 Hle1 Hv1 E];
    cbn [bind]; try (eexists; split; [reflexivity|]; cbn; lia).
  set (offset1 := offset v + getVarIntSize first1) in *.
  assert (Hoff1 : 0 <= offset1) by lia.
  pose proof (readVarInt_outcome_holds data offset1 Hoff1) as R2.
  inversion R2 as [ ? E2 | ? ? ? E2 | ? ? ? ? E2 | first2 partSize Hf2 Hs2 Hle2 Hv2 E2];
    cbn [bind]; try (eexists; split; [reflexivity|]; cbn; lia).
  set (offset2 := offset1 + getVarIntSize first2) in *.
  destruct (Z.eqb_spec partSize 0) as [Hz|Hnz].
  { destruct (IH data (mkVars offset2 (umpHeader v) (accV v) (firstV v)))
      as [e [He Hb]]; cbn [offset]; [lia | lia |].
    exists e. split; [exact He|]. destruct e; cbn [offset] in Hb; lia. }
  destruct (Z.gtb_spec (offset2 + partSize) (len data)) as [Hgt|Hfit].
  { eexists. split; [reflexivity|]. cbn. lia. }
  destruct (slice_in_range data offset2 (offset2 + partSize)) as [payload [Hsl Hlen]];
    [lia | lia |].
  rewrite Hsl. cbn [bind].
  destruct (if partType =? 20 then _ else _) as [err|hdr].
  { eexists. split; [reflexivity|]. cbn. lia. }
  assert (Hm : exists acc first,
             (if partType =? 21 then mediaPart payload (accV v) (firstV v)
              else Done (accV v, firstV v)) = Done (acc, first)).
  { destruct (partType =? 21); [|eauto].
    destruct payload as [|b tl]; [change (len []) with 0 in Hlen; lia|].
    rewrite mediaPart_cons. eauto. }
  destruct Hm as [acc [first ->]]. cbn [bind].
  destruct (IH data (mkVars (offset2 + partSize) hdr acc first))
    as [e [He Hb]]; cbn [offset]; [lia | lia |].
  exists e. split; [exact He|]. destruct e; cbn [offset] in Hb; lia.
Qed.

(** [stateMachineParser] always returns: its loop never runs out of the
    fuel it is given and never panics.  The buffer it leaves is a suffix
    of the one it was given. *)
Lemma stateMachineParser_total (s : Session) :
  exists (h : option UMPMediaHeader) (err : option error) (s' : Session),
    stateMachineParser s = Done ((h, err), s') /\
    exists n, 0 <= n <= len (buf s) /\ buf s' = skipn (Z.to_nat n) (buf s).
Proof.
  unfold stateMachineParser.
  destruct (parseLoop_total (S (length (buf s))) (buf s)
              (mkVars 0 None (mediaAcc s) (firstMedia s))) as [e [He Hb]];
    cbn [offset]; [pose proof (len_nonneg (buf s)); lia | unfold len; lia |].
  rewrite He. cbn [bind]. destruct e as [v|err v]; cbn [offset] in Hb.
  - do 3 eexists. split; [reflexivity|]. exists (offset v). cbn [buf]. split; [lia|reflexivity].
  - do 3 eexists. split; [reflexivity|]. exists 0. cbn [buf].
    split; [pose proof (len_nonneg (buf s)); lia | reflexivity].
Qed.

Lemma framed_length (data : list byte) (ps : list (Z * list byte)) :
  framed data ps -> 2 * len ps <= len data.
Proof.
  induction 1 as [|tb lb ty payload rest ps Ht Hl _ IH].
  - cbn. lia.
  - pose proof (readVarInt_ok_advances _ _ _ _ (Z.le_refl 0) Ht).
    pose proof (readVarInt_ok_advances _ _ _ _ (Z.le_refl 0) Hl).
    pose proof (len_nonneg payload).
    rewrite !len_app. unfold len in *. cbn [length]. lia.
Qed.

Lemma framed_nil_inv (ps : list (Z * list byte)) : framed [] ps -> ps = [].
Proof.
  intros H. apply framed_length in H. destruct ps; [reflexivity|].
  unfold len in H. cbn [length] in H. lia.
Qed.

Lemma framed_app (d1 d2 : list byte) (ps1 ps2 : list (Z * list byte)) :
  framed d1 ps1 -> framed d2 ps2 -> framed (d1 ++ d2) (ps1 ++ ps2).
Proof.
  induction 1 as [|tb lb ty payload rest ps Ht Hl _ IH]; intros H2; [exact H2|].
  rewrite <- !app_assoc. cbn [app]. apply framed_cons; auto.
Qed.

(** *** Buffers that end in an incomplete part *)

(** A varint that fails to decode at the start of the last bytes of a
    slice fails there in the slice, with the cursor left in place. *)
Lemma readVarInt_fails_at (pre d : list byte) (v o : Z) (e : error) :
  readVarInt d 0 = Done ((v, Some e), o) ->
  exists e', readVarInt (pre ++ d) (len pre) = Done ((0, Some e'), len pre).
Proof.
  intros E. pose proof (len_nonneg pre) as Hpre.
  pose proof (readVarInt_outcome_holds d 0 (Z.le_refl 0)) as R0. rewrite E in R0.
  pose proof (readVarInt_outcome_holds (pre ++ d) (len pre) Hpre) as R.
  assert (Hsame : forall f f', index d 0 = Done f ->
                    index (pre ++ d) (len pre) = Done f' -> f' = f).
  { intros f f' H1 H2. apply (index_app_r pre) in H1. rewrite Z.add_0_r in H1. congruence. }
  inversion R as [ ? E1 | ? ? ? E1 | ? ? ? ? E1 | first' v' Hf' Hs' Hle' Hv' E1];
    try (eexists; reflexivity).
  exfalso. rewrite len_app in Hle'.
  inversion R0 as [Hge | first Hf Hs | first Hf Hs Hgt | ]; subst.
  - apply index_Done in Hf'. rewrite len_app in Hf'. lia.
  - rewrite (Hsame _ _ Hf Hf') in Hs'. lia.
  - rewrite (Hsame _ _ Hf Hf') in Hle'. lia.
Qed.

(** The turn of the loop that meets an incomplete part. *)
Lemma parseLoop_stalled (fuel : nat) (pre tail left : list byte) (v : loopVars) :
  stalled tail left -> offset v = len pre ->
  parseLoop (S fuel) (pre ++ tail) v
  = Done (Break (mkVars (len pre + len tail - len left)
                        (umpHeader v) (accV v) (firstV v))).
Proof.
  intros Hst Hoff. pose proof (len_nonneg pre) as Hpre.
  destruct Hst as [tail x e o E | tb ty r x e o Et Er | tb ty lb n partial Et El Hn].
  - replace (len pre + len tail - len tail) with (len pre) by lia.
    cbn [parseLoop]. rewrite Hoff.
    destruct (readVarInt_fails_at pre tail _ _ _ E) as [e' E'].
    destruct (len pre >=? len (pre ++ tail)); [|rewrite E'; cbn [bind]];
      destruct v; cbn in *; now subst.
  - pose proof (readVarInt_ok_advances _ _ _ _ (Z.le_refl 0) Et) as Htb.
    pose proof (len_nonneg r) as Hr.
    cbn [parseLoop]. rewrite Hoff.
    replace (len pre >=? len (pre ++ tb ++ r)) with false
      by (symmetry; rewrite !len_app;
          destruct (Z.geb_spec (len pre) (len pre + (len tb + len r))); [lia | reflexivity]).
    rewrite (readVarInt_framed pre tb r ty Et). cbn [bind].
    destruct (readVarInt_fails_at (pre ++ tb) r _ _ _ Er) as [e' E'].
    rewrite len_app, <- app_assoc in E'. rewrite E'. cbn [bind].
    rewrite !len_app. do 3 f_equal. lia.
  - pose proof (readVarInt_ok_advances _ _ _ _ (Z.le_refl 0) Et) as Htb.
    pose proof (readVarInt_ok_advances _ _ _ _ (Z.le_refl 0) El) as Hlb.
    pose proof (len_nonneg partial) as Hp.
    cbn [parseLoop]. rewrite Hoff.
    replace (len pre >=? len (pre ++ tb ++ lb ++ partial)) with false
      by (symmetry; rewrite !len_app;
          destruct (Z.geb_spec (len pre) (len pre + (len tb + (len lb + len partial))));
          [lia | reflexivity]).
    rewrite (readVarInt_framed pre tb (lb ++ partial) ty Et). cbn [bind].
    pose proof (readVarInt_framed (pre ++ tb) lb partial n El) as E2.
    rewrite len_app, <- app_assoc in E2. rewrite E2. cbn [bind].
    replace (n =? 0) with false by (symmetry; apply Z.eqb_neq; lia).
    replace (len pre + len tb + len lb + n >? len (pre ++ tb ++ lb ++ partial)) with true
      by (symmetry; rewrite !len_app;
          destruct (Z.gtb_spec (len pre + len tb + len lb + n)
                               (len pre + (len tb + (len lb + len partial))));
          [reflexivity | lia]).
    rewrite !len_app. do 3 f_equal. lia.
Qed.

(** The loop on a stream of complete parts, whatever follows them: one
    turn per part. *)
Lemma parseLoop_framed (mid : list byte) (ps : list (Z * list byte)) :
  framed mid ps ->
  forall (pre tail : list byte) (v : loopVars) hdr acc first (n : nat),
    offset v = len pre ->
    runParts ps (umpHeader v, accV v, firstV v) = inr (hdr, acc, first) ->
    parseLoop (length ps + n) (pre ++ mid ++ tail) v
    = parseLoop n (pre ++ mid ++ tail) (mkVars (len pre + len mid) hdr acc first).
Proof.
  induction 1 as [|tb lb ty payload rest ps Ht Hl _ IH];
    intros pre tail v hdr acc first n Hoff Hrun.
  - cbn [runParts] in Hrun. injection Hrun as <- <- <-.
    destruct v; cbn in *. subst. change (len []) with 0. now rewrite Z.add_0_r.
  - cbn [runParts] in Hrun. cbn [length Nat.add]. rewrite <- !app_assoc.
    rewrite (parseLoop_part _ _ _ _ _ _ _ _ Ht Hl Hoff).
    destruct (partEffect ty payload (umpHeader v, accV v, firstV v))
      as [e|[[hdr1 acc1] first1]]; [discriminate|].
    specialize (IH (pre ++ tb ++ lb ++ payload) tail
                   (mkVars (len pre + len tb + len lb + len payload) hdr1 acc1 first1)
                   hdr acc first n).
    rewrite <- !app_assoc in IH. rewrite IH.
    + rewrite !len_app. do 2 f_equal. lia.
    + cbn [offset]. rewrite !len_app. lia.
    + exact Hrun.
Qed.

Lemma stalled_suffix (tail left : list byte) :
  stalled tail left -> exists hd, tail = hd ++ left.
Proof.
  destruct 1.
  - now exists [].
  - now exists tb.
  - exists (tb ++ lb). now rewrite <- app_assoc.
Qed.

(** One call of the state machine on a buffer of complete parts followed
    by an incomplete one: the complete parts are handled and the buffer is
    cut at the cursor the loop stopped with. *)
Lemma stateMachineParser_stream (s : Session) (mid tail left : list byte)
    (ps : list (Z * list byte)) hdr acc first :
  buf s = mid ++ tail -> framed mid ps -> stalled tail left ->
  runParts ps (None, mediaAcc s, firstMedia s) = inr (hdr, acc, first) ->
  stateMachineParser s = Done ((hdr, None), mkSession left acc first).
Proof.
  intros Hbuf Hf Hst Hrun. unfold stateMachineParser. rewrite Hbuf.
  pose proof (parseLoop_framed _ _ Hf [] tail (mkVars 0 None (mediaAcc s) (firstMedia s))
                hdr acc first 1 eq_refl Hrun) as E.
  cbn [app] in E. change (len []) with 0 in E. rewrite Z.add_0_l in E.
  pose proof (parseLoop_stalled 0 mid tail left (mkVars (len mid) hdr acc first)
                Hst eq_refl) as E2.
  cbn [umpHeader accV firstV] in E2. rewrite E2 in E.
  rewrite (parseLoop_mono _ _ _ _ _ E).
  - cbn [bind offset umpHeader accV firstV]. do 2 f_equal.
    destruct (stalled_suffix _ _ Hst) as [hd ->].
    rewrite app_assoc. rewrite !len_app.
    replace (Z.to_nat _) with (length (mid ++ hd))
      by (rewrite length_app; unfold len; lia).
    now rewrite skipn_app, skipn_all, Nat.sub_diag.
  - apply framed_length in Hf. rewrite length_app. unfold len in Hf. lia.
Qed.

Lemma stalled_nil : stalled [] [].
Proof. now apply (stalled_type [] 0 ErrNoDataAvailable 0). Qed.

(** One call of the state machine on a buffer of complete parts takes all
    of them and leaves the buffer empty. *)
Lemma stateMachineParser_framed (s : Session) (ps : list (Z * list byte))
    hdr acc first :
  framed (buf s) ps ->
  runParts ps (None, mediaAcc s, firstMedia s) = inr (hdr, acc, first) ->
  stateMachineParser s = Done ((hdr, None), mkSession [] acc first).
Proof.
  intros Hf Hrun.
  apply (stateMachineParser_stream s (buf s) [] [] ps); auto using stalled_nil.
  now rewrite app_nil_r.
Qed.

(** *** What a stream of complete parts does to the header, the accumulator
    and the flag *)

Lemma len_cons_eqb (b : byte) (tl : list byte) : (len (b :: tl) =? 0) = false.
Proof. apply Z.eqb_neq. unfold len. cbn [length]. lia. Qed.

Lemma partEffect_inv (ty : Z) (payload : list byte) hdr acc first h a f :
  partEffect ty payload (hdr, acc, first) = inr (h, a, f) ->
  (if dispatched 21 (ty, payload)
   then a = acc ++ (if first then payload else stripLeadingZero payload) /\ f = true
   else a = acc /\ f = first) /\
  (if dispatched 20 (ty, payload)
   then exists h', headerPart payload = inr h' /\ h = Some h'
   else h = hdr).
Proof.
  unfold partEffect, dispatched. cbn [fst snd].
  destruct payload as [|b tl].
  - intros [= <- <- <-]. change (len [] =? 0) with true. cbn [negb].
    rewrite !andb_false_r. auto.
  - rewrite len_cons_eqb. cbn [negb]. rewrite !andb_true_r.
    destruct (Z.eqb_spec ty 20) as [->|H20].
    + change (20 =? 21) with false.
      destruct (headerPart (b :: tl)) as [e|h']; [discriminate|].
      intros [= <- <- <-]. eauto.
    + destruct (ty =? 21); intros [= <- <- <-]; [|auto].
      split; [|reflexivity]. split; [|reflexivity].
      cbn [stripLeadingZero]. destruct first; cbn [negb andb]; [reflexivity|].
      now destruct (int_of_byte b =? 0).
Qed.

Lemma runParts_app (ps1 ps2 : list (Z * list byte)) st :
  runParts (ps1 ++ ps2) st
  = match runParts ps1 st with
    | inl e => inl e
    | inr st' => runParts ps2 st'
    end.
Proof.
  revert st. induction ps1 as [|[ty payload] ps1 IH]; intros st; [reflexivity|].
  cbn [app runParts]. destruct (partEffect ty payload st); [reflexivity | apply IH].
Qed.

Lemma runParts_decodes (ps : list (Z * list byte)) :
  headersDecode ps -> forall st, exists h a f, runParts ps st = inr (h, a, f).
Proof.
  induction 1 as [|[ty payload] ps Hp _ IH]; intros [[hdr acc] first].
  - cbn. eauto.
  - cbn [runParts].
    assert (E : exists st', partEffect ty payload (hdr, acc, first) = inr st').
    { unfold partEffect. destruct payload as [|b tl]; [eauto|].
      destruct (Z.eqb_spec ty 20) as [->|H20].
      - destruct Hp as [h Hh].
        { unfold dispatched. cbn [fst snd]. now rewrite len_cons_eqb. }
        cbn [snd] in Hh. rewrite Hh. change (20 =? 21) with false. eauto.
      - destruct (ty =? 21); eauto. }
    destruct E as [st' ->]. apply IH.
Qed.

(** With the flag already set every media payload is appended as it is. *)
Lemma runParts_media_seen (ps : list (Z * list byte)) :
  forall hdr acc h a f,
    runParts ps (hdr, acc, true) = inr (h, a, f) ->
    a = acc ++ mediaPayloads ps /\ f = true.
Proof.
  induction ps as [|[ty payload] ps IH]; intros hdr acc h a f Hrun.
  - cbn in Hrun. injection Hrun as <- <- <-. unfold mediaPayloads. cbn.
    rewrite app_nil_r. auto.
  - cbn [runParts] in Hrun.
    destruct (partEffect ty payload (hdr, acc, true)) as [e|[[h1 a1] f1]] eqn:E;
      [discriminate|].
    apply partEffect_inv in E. destruct E as [Em _].
    unfold mediaPayloads. cbn [filter].
    destruct (dispatched 21 (ty, payload)); destruct Em as [-> ->];
      apply IH in Hrun; destruct Hrun as [-> ->].
    + cbn [map concat snd]. rewrite <- !app_assoc. auto.
    + auto.
Qed.

(** Parts that are not dispatched media parts leave the accumulator and
    the flag as they are. *)
Lemma runParts_no_media (ps : list (Z * list byte)) :
  filter (dispatched 21) ps = [] ->
  forall hdr acc first h a f,
    runParts ps (hdr, acc, first) = inr (h, a, f) -> a = acc /\ f = first.
Proof.
  induction ps as [|[ty payload] ps IH]; intros Hno hdr acc first h a f Hrun.
  - cbn in Hrun. now injection Hrun as <- <- <-.
  - cbn [runParts] in Hrun. cbn [filter] in Hno.
    destruct (partEffect ty payload (hdr, acc, first)) as [e|[[h1 a1] f1]] eqn:E;
      [discriminate|].
    apply partEffect_inv in E. destruct E as [Em _].
    destruct (dispatched 21 (ty, payload)); [discriminate|].
    destruct Em as [-> ->]. now apply IH in Hrun.
Qed.

Lemma runParts_no_header (ps : list (Z * list byte)) :
  filter (dispatched 20) ps = [] ->
  forall hdr acc first h a f,
    runParts ps (hdr, acc, first) = inr (h, a, f) -> h = hdr.
Proof.
  induction ps as [|[ty payload] ps IH]; intros Hno hdr acc first h a f Hrun.
  - cbn in Hrun. now injection Hrun as <- <- <-.
  - cbn [runParts] in Hrun. cbn [filter] in Hno.
    destruct (partEffect ty payload (hdr, acc, first)) as [e|[[h1 a1] f1]] eqn:E;
      [discriminate|].
    apply partEffect_inv in E. destruct E as [_ Eh].
    destruct (dispatched 20 (ty, payload)); [discriminate|].
    subst h1. now apply IH in Hrun.
Qed.

(** The first dispatched media part of a session loses a leading zero
    byte; the media payloads after it are appended as they are. *)
Lemma runParts_first_media (before after : list (Z * list byte))
    (ty : Z) (p : list byte) hdr acc h a f :
  filter (dispatched 21) before = [] ->
  dispatched 21 (ty, p) = true ->
  runParts (before ++ (ty, p) :: after) (hdr, acc, false) = inr (h, a, f) ->
  a = acc ++ stripLeadingZero p ++ mediaPayloads after /\ f = true.
Proof.
  intros Hno Hp Hrun. rewrite runParts_app in Hrun.
  destruct (runParts before (hdr, acc, false)) as [e|[[h1 a1] f1]] eqn:E1;
    [discriminate|].
  apply (runParts_no_media _ Hno) in E1. destruct E1 as [-> ->].
  cbn [runParts] in Hrun.
  destruct (partEffect ty p (h1, acc, false)) as [e|[[h2 a2] f2]] eqn:E2;
    [discriminate|].
  apply partEffect_inv in E2. destruct E2 as [Em _]. rewrite Hp in Em.
  destruct Em as [-> ->].
  apply runParts_media_seen in Hrun. destruct Hrun as [-> ->].
  now rewrite <- app_assoc.
Qed.

(** The header after a stream is the one decoded from its last dispatched
    header part, whatever came before. *)
Lemma runParts_last_header (before after : list (Z * list byte))
    (ty : Z) (p : list byte) hdr acc first h a f :
  dispatched 20 (ty, p) = true ->
  filter (dispatched 20) after = [] ->
  runParts (before ++ (ty, p) :: after) (hdr, acc, first) = inr (h, a, f) ->
  exists h', headerPart p = inr h' /\ h = Some h'.
Proof.
  intros Hp Hno Hrun. rewrite runParts_app in Hrun.
  destruct (runParts before (hdr, acc, first)) as [e|[[h1 a1] f1]]; [discriminate|].
  cbn [runParts] in Hrun.
  destruct (partEffect ty p (h1, a1, f1)) as [e|[[h2 a2] f2]] eqn:E2; [discriminate|].
  apply partEffect_inv in E2. destruct E2 as [_ Eh]. rewrite Hp in Eh.
  destruct Eh as [h' [Hh' ->]].
  apply (runParts_no_header _ Hno) in Hrun. subst h. eauto.
Qed.

(** The header a stream leaves does not depend on the header before it,
    except to keep it when the stream has no dispatched header part. *)
Lemma runParts_header_init (ps : list (Z * list byte)) :
  forall hdr1 hdr2 acc first h1 a f,
    runParts ps (hdr1, acc, first) = inr (h1, a, f) ->
    exists h2, runParts ps (hdr2, acc, first) = inr (h2, a, f) /\
               ((h1 = hdr1 /\ h2 = hdr2) \/ (h1 = h2 /\ h1 <> None)).
Proof.
  induction ps as [|[ty payload] ps IH]; intros hdr1 hdr2 acc first h1 a f Hrun.
  - cbn in Hrun. injection Hrun as <- <- <-. exists hdr2. cbn. auto.
  - cbn [runParts] in *.
    destruct (partEffect ty payload (hdr1, acc, first)) as [e|[[h1' a'] f']] eqn:E1;
      [discriminate|].
    assert (E2 : exists h2', partEffect ty payload (hdr2, acc, first) = inr (h2', a', f')
                   /\ ((h1' = hdr1 /\ h2' = hdr2) \/ (h1' = h2' /\ h1' <> None))).
    { revert E1. unfold partEffect. destruct payload as [|b tl].
      - intros [= <- <- <-]. eauto.
      - destruct (ty =? 20).
        + destruct (headerPart (b :: tl)) as [e|h']; [discriminate|].
          destruct (ty =? 21); intros [= <- <- <-];
            (eexists; split; [reflexivity|]; right; split; congruence).
        + destruct (ty =? 21); intros [= <- <- <-]; eauto. }
    destruct E2 as [h2' [-> Hrel]].
    destruct (IH _ h2' _ _ _ _ _ Hrun) as [h2 [E Hrel2]].
    exists h2. split; [exact E|].
    destruct Hrel as [[-> ->]|[<- Hn]]; [exact Hrel2|].
    right. destruct Hrel2 as [[-> ->]|[-> Hn2]]; auto.
Qed.

(** ** Decode orchestration on streams of complete parts *)

Lemma len_eqb_nil {A : Type} (l : list A) : (len l =? 0) = true <-> l = [].
Proof.
  rewrite Z.eqb_eq. unfold len. destruct l; cbn [length]; split; intros; try reflexivity;
    try discriminate; lia.
Qed.

Lemma ParseUMPFull_framed (data : list byte) (ps : list (Z * list byte))
    hdr acc first (fuel : nat) :
  data <> [] -> framed data ps ->
  runParts ps (None, [], false) = inr (hdr, acc, first) ->
  ParseUMPFull (S (S fuel)) data = Done (mkUMPData hdr acc, None).
Proof.
  intros Hne Hf Hrun. unfold ParseUMPFull.
  destruct (len data =? 0) eqn:E0; [apply len_eqb_nil in E0; contradiction|].
  cbn [fullLoop buf].
  assert (Hpos : (len data >? 0) = true).
  { apply Z.eqb_neq in E0. pose proof (len_nonneg data).
    destruct (Z.gtb_spec (len data) 0); [reflexivity | lia]. }
  rewrite Hpos.
  rewrite (stateMachineParser_framed (mkSession data [] false) ps hdr acc first Hf Hrun).
  cbn [bind buf mediaAcc]. change (len [] >? 0) with false. cbv iota.
  now destruct hdr.
Qed.

Lemma chunksLoop_framed (chunks : list (list byte)) (pss : list (list (Z * list byte))) :
  Forall2 framed chunks pss ->
  forall (s : Session) hdr0 hdr acc first,
    buf s = [] ->
    runParts (concat pss) (hdr0, mediaAcc s, firstMedia s) = inr (hdr, acc, first) ->
    chunksLoop chunks s hdr0 = Done (mkUMPData hdr acc, None).
Proof.
  induction 1 as [|chunk ps chunks pss Hf _ IH]; intros s hdr0 hdr acc first Hbuf Hrun.
  - cbn in Hrun. injection Hrun as <- <- <-. reflexivity.
  - cbn [concat] in Hrun. rewrite runParts_app in Hrun. cbn [chunksLoop].
    destruct (len chunk =? 0) eqn:E0.
    + apply len_eqb_nil in E0. subst chunk. apply framed_nil_inv in Hf. subst ps.
      cbn [runParts] in Hrun. now apply IH with first.
    + destruct (runParts ps (hdr0, mediaAcc s, firstMedia s))
        as [e|[[h1 a1] f1]] eqn:E1; [discriminate|].
      destruct (runParts_header_init _ _ None _ _ _ _ _ E1) as [h0 [E2 Hrel]].
      rewrite Hbuf. cbn [app].
      rewrite (stateMachineParser_framed
                 (mkSession chunk (mediaAcc s) (firstMedia s)) ps h0 a1 f1 Hf E2).
      cbn [bind]. apply IH with first; [reflexivity|]. cbn [mediaAcc firstMedia].
      replace (match h0 with Some _ => h0 | None => hdr0 end) with h1; [exact Hrun|].
      destruct Hrel as [[-> ->]|[-> Hn]]; [reflexivity|]. now destruct h0.
Qed.

Lemma ParseUMPChunks_framed (chunks : list (list byte))
    (pss : list (list (Z * list byte))) hdr acc first :
  chunks <> [] -> Forall2 framed chunks pss ->
  runParts (concat pss) (None, [], false) = inr (hdr, acc, first) ->
  ParseUMPChunks chunks = Done (mkUMPData hdr acc, None).
Proof.
  intros Hne Hf Hrun. unfold ParseUMPChunks.
  destruct (len chunks =? 0) eqn:E0; [apply len_eqb_nil in E0; contradiction|].
  now apply chunksLoop_framed with pss first.
Qed.


(** *** Every buffer is complete parts followed by an incomplete one *)

(** A varint that decodes at the start of a slice is a prefix of it that
    decodes on its own. *)
Lemma readVarInt_unframed (data : list byte) (v o : Z) :
  readVarInt data 0 = Done ((v, None), o) ->
  exists enc post,
    data = enc ++ post /\ len enc = o /\
    readVarInt enc 0 = Done ((v, None), len enc).
Proof.
  intros E. pose proof (readVarInt_outcome_holds data 0 (Z.le_refl 0)) as R.
  rewrite E in R.
  inversion R as [ | | | first v' Hf Hs Hle Hv [Ev Eo]]. subst v'.
  set (size := getVarIntSize first) in *.
  exists (firstn (Z.to_nat size) data), (skipn (Z.to_nat size) data).
  assert (Hlen : len (firstn (Z.to_nat size) data) = size)
    by (unfold len in *; rewrite length_firstn; lia).
  split; [symmetry; apply firstn_skipn|]. split; [lia|].
  assert (H0 : nth_error (firstn (Z.to_nat size) data) 0 = Some first).
  { apply index_Done in Hf. destruct Hf as [_ Hf]. change (Z.to_nat 0) with 0%nat in Hf.
    destruct data as [|b t]; [discriminate|].
    destruct (Z.to_nat size) as [|k] eqn:Ek; [lia|]. exact Hf. }
  assert (Ht : tableSize (leadingOnes first) = Some size).
  { pose proof (getVarIntSize_leadingOnes first) as G. unfold tableSize. fold size in G.
    destruct (leadingOnes first <=? 4); [f_equal; lia | lia]. }
  destruct (readVarInt_table_at [] _ (skipn (Z.to_nat size) data) first size H0 Ht Hlen)
    as [_ E1].
  cbn [app] in E1. rewrite firstn_skipn in E1. change (len []) with 0 in E1.
  rewrite E in E1. injection E1 as E1 _.
  destruct (readVarInt_table_at [] _ [] first size H0 Ht Hlen) as [_ E2].
  cbn [app] in E2. rewrite app_nil_r in E2. change (len []) with 0 in E2.
  rewrite E2, Hlen, E1. reflexivity.
Qed.

(** Every buffer is a run of complete parts whose headers decode, followed
    either by bytes on which the loop stops or by a header part that does
    not decode. *)
Lemma buffer_shape (data : list byte) :
  exists (mid tail : list byte) (ps : list (Z * list byte)),
    data = mid ++ tail /\ framed mid ps /\ headersDecode ps /\
    ((exists left, stalled tail left) \/
     (exists tb lb p rest e,
        tail = tb ++ lb ++ p ++ rest /\ p <> [] /\
        readVarInt tb 0 = Done ((20, None), len tb) /\
        readVarInt lb 0 = Done ((len p, None), len lb) /\
        headerPart p = inl e)).
Proof.
  remember (length data) as n eqn:Hn.
  assert (Hle : (length data <= n)%nat) by lia. clear Hn.
  revert data Hle. induction n as [|n IH]; intros data Hle.
  { destruct data; [|cbn in Hle; lia].
    exists [], [], []. (split; [reflexivity | split; [constructor | split; [constructor|]]]).
    left. exists []. apply stalled_nil. }
  destruct (readVarInt data 0) as [[[ty [e1|]] o1]| |] eqn:E1.
  - (* the type does not decode *)
    exists [], data, []. (split; [reflexivity | split; [constructor | split; [constructor|]]]).
    left. exists data. now apply (stalled_type data ty e1 o1).
  - destruct (readVarInt_unframed _ _ _ E1) as [tb [r1 [-> [Ho1 Et]]]].
    pose proof (readVarInt_ok_advances _ _ _ _ (Z.le_refl 0) Et) as Htb.
    destruct (readVarInt r1 0) as [[[sz [e2|]] o2]| |] eqn:E2.
    + (* the length does not decode *)
      exists [], (tb ++ r1), []. (split; [reflexivity | split; [constructor | split; [constructor|]]]).
      left. exists r1. now apply (stalled_length tb ty r1 sz e2 o2).
    + destruct (readVarInt_unframed _ _ _ E2) as [lb [r2 [-> [Ho2 El]]]].
      pose proof (readVarInt_ok_advances _ _ _ _ (Z.le_refl 0) El) as Hlb.
      pose proof (readVarInt_value_bound _ _ _ _ (Z.le_refl 0) El) as Hsz.
      destruct (Z.ltb_spec (len r2) sz) as [Hshort|Hfit].
      * (* the payload is not all there *)
        exists [], (tb ++ lb ++ r2), []. (split; [reflexivity | split; [constructor | split; [constructor|]]]).
        left. exists r2. now apply (stalled_payload tb ty lb sz r2).
      * set (p := firstn (Z.to_nat sz) r2). set (rest := skipn (Z.to_nat sz) r2).
        assert (Hp : len p = sz)
          by (unfold p, len in *; rewrite length_firstn; lia).
        assert (Hr2 : r2 = p ++ rest) by (symmetry; apply firstn_skipn).
        rewrite <- Hp in El.
        destruct (dispatched 20 (ty, p)) eqn:D20.
        -- unfold dispatched in D20. cbn [fst snd] in D20.
           apply andb_true_iff in D20. destruct D20 as [Hty Hne].
           apply Z.eqb_eq in Hty. subst ty.
           destruct (headerPart p) as [e|h] eqn:Eh.
           ++ exists [], (tb ++ lb ++ r2), []. (split; [reflexivity | split; [constructor | split; [constructor|]]]).
              right. exists tb, lb, p, rest, e. rewrite <- Hr2.
              repeat split; auto. intros ->. discriminate.
           ++ destruct (IH rest) as [mid [tail [ps [Hd [Hf [Hdec Hend]]]]]].
              { rewrite Hr2, !length_app in Hle. unfold len in *. lia. }
              exists (tb ++ lb ++ p ++ mid), tail, ((20, p) :: ps).
              split; [rewrite Hr2, Hd, <- !app_assoc; reflexivity|].
              split; [now apply framed_cons|].
              split; [|exact Hend]. constructor; [|exact Hdec]. intros _. now exists h.
        -- destruct (IH rest) as [mid [tail [ps [Hd [Hf [Hdec Hend]]]]]].
           { rewrite Hr2, !length_app in Hle. unfold len in *. lia. }
           exists (tb ++ lb ++ p ++ mid), tail, ((ty, p) :: ps).
           split; [rewrite Hr2, Hd, <- !app_assoc; reflexivity|].
           split; [now apply framed_cons|].
           split; [|exact Hend]. constructor; [|exact Hdec].
           intros D. congruence.
    + pose proof (readVarInt_outcome_holds r1 0 (Z.le_refl 0)) as R.
      rewrite E2 in R. inversion R.
    + pose proof (readVarInt_outcome_holds r1 0 (Z.le_refl 0)) as R.
      rewrite E2 in R. inversion R.
  - pose proof (readVarInt_outcome_holds data 0 (Z.le_refl 0)) as R.
    rewrite E1 in R. inversion R.
  - pose proof (readVarInt_outcome_holds data 0 (Z.le_refl 0)) as R.
    rewrite E1 in R. inversion R.
Qed.

Lemma mediaPayloads_app (ps1 ps2 : list (Z * list byte)) :
  mediaPayloads (ps1 ++ ps2) = mediaPayloads ps1 ++ mediaPayloads ps2.
Proof. unfold mediaPayloads. now rewrite filter_app, map_app, concat_app. Qed.

Lemma mediaPayloads_none (ps : list (Z * list byte)) :
  filter (dispatched 21) ps = [] -> mediaPayloads ps = [].
Proof. unfold mediaPayloads. now intros ->. Qed.

Lemma dispatched_cons (ty : Z) (b : byte) (tl : list byte) :
  dispatched ty (ty, b :: tl) = true.
Proof. unfold dispatched. cbn [fst snd]. now rewrite Z.eqb_refl, len_cons_eqb. Qed.

Lemma framed_concat (chunks : list (list byte)) (pss : list (list (Z * list byte))) :
  Forall2 framed chunks pss -> framed (concat chunks) (concat pss).
Proof.
  induction 1 as [|chunk ps chunks pss Hf _ IH]; [constructor|].
  cbn [concat]. now apply framed_app.
Qed.

Lemma zero_length_parts_inert (zs : list (Z * list byte)) :
  Forall (fun z => z = (21, [])) zs ->
  filter (dispatched 21) zs = [] /\ filter (dispatched 20) zs = [] /\
  headersDecode zs.
Proof.
  induction 1 as [|z zs -> _ [IH1 [IH2 IH3]]].
  - repeat split; constructor.
  - repeat split; [exact IH1 | exact IH2 |]. constructor; [discriminate | exact IH3].
Qed.

(** *** A header part that does not decode *)

(** When the first header part that does not decode comes after complete
    parts, the call returns its error and no header. *)
Lemma stateMachineParser_header_fails (s : Session)
    (mid tb lb p rest : list byte) (ps : list (Z * list byte)) (e : error) :
  buf s = mid ++ tb ++ lb ++ p ++ rest ->
  framed mid ps -> headersDecode ps ->
  readVarInt tb 0 = Done ((20, None), len tb) ->
  readVarInt lb 0 = Done ((len p, None), len lb) ->
  p <> [] -> headerPart p = inl e ->
  exists s', stateMachineParser s = Done ((None, Some e), s') /\ buf s' = buf s.
Proof.
  intros Hbuf Hf Hdec Ht Hl Hp He. unfold stateMachineParser. rewrite Hbuf.
  destruct (runParts_decodes _ Hdec (None, mediaAcc s, firstMedia s))
    as [h [a [f Hrun]]].
  pose proof (parseLoop_framed _ _ Hf [] (tb ++ lb ++ p ++ rest)
                (mkVars 0 None (mediaAcc s) (firstMedia s)) h a f 1 eq_refl Hrun) as E.
  cbn [app] in E. change (len []) with 0 in E. rewrite Z.add_0_l in E.
  rewrite (parseLoop_part 0 mid tb lb p rest 20 (mkVars (len mid) h a f) Ht Hl eq_refl) in E.
  cbn [umpHeader accV firstV partEffect] in E.
  destruct p as [|b tl]; [contradiction|]. change (20 =? 20) with true in E.
  cbv iota in E. rewrite He in E.
  rewrite (parseLoop_mono _ _ _ _ _ E).
  - cbn [bind]. eexists. split; reflexivity.
  - apply framed_length in Hf. rewrite length_app. unfold len in Hf. lia.
Qed.

(** *** The result of [ParseUMPFull] does not depend on the fuel *)

Lemma fullLoop_mono (n : nat) :
  forall (m : nat) (s : Session) hdr r,
    fullLoop n s hdr = Done r -> (n <= m)%nat -> fullLoop m s hdr = Done r.
Proof.
  induction n as [|n IH]; intros m s hdr r H Hnm; [discriminate|].
  destruct m as [|m]; [lia|]. cbn [fullLoop] in *.
  destruct (len (buf s) >? 0); [|exact H].
  destruct (stateMachineParser s) as [[[h [e|]] s']| |]; cbn [bind] in *;
    try discriminate; [exact H|].
  apply IH; [exact H | lia].
Qed.

Lemma ParseUMPFull_returns_unique (data : list byte) (r1 r2 : UMPData * option error) :
  ParseUMPFull_returns data r1 -> ParseUMPFull_returns data r2 -> r1 = r2.
Proof.
  intros [n1 E1] [n2 E2]. unfold ParseUMPFull in *.
  destruct (len data =? 0); [congruence|].
  apply (fullLoop_mono _ (Nat.max n1 n2)) in E1; [|lia].
  apply (fullLoop_mono _ (Nat.max n1 n2)) in E2; [|lia].
  congruence.
Qed.

(** *** Chunks cut between parts *)

(** When every chunk is made of complete parts, the chunked entry point
    and the whole-buffer entry point on the concatenation return the same
    result. *)
Lemma chunks_of_complete_parts_agree (chunks : list (list byte))
    (pss : list (list (Z * list byte))) :
  Forall2 framed chunks pss -> headersDecode (concat pss) ->
  concat chunks <> [] ->
  exists r, ParseUMPChunks chunks = Done (r, None) /\
            ParseUMPFull_returns (concat chunks) (r, None).
Proof.
  intros Hf Hdec Hne.
  destruct (runParts_decodes _ Hdec (None, [], false)) as [h [a [f Hrun]]].
  exists (mkUMPData h a). split.
  - apply (ParseUMPChunks_framed chunks pss h a f); auto.
    intros ->. now apply Hne.
  - exists 2%nat. apply (ParseUMPFull_framed _ (concat pss) h a f); auto.
    now apply framed_concat.
Qed.

(** ** The claims about complete parts *)

Lemma framed_chunks_nonempty (chunks : list (list byte))
    (pss : list (list (Z * list byte))) :
  Forall2 framed chunks pss -> concat pss <> [] ->
  chunks <> [] /\ concat chunks <> [].
Proof.
  intros Hf Hne. split.
  - intros ->. inversion Hf. subst. now apply Hne.
  - intros E. pose proof (framed_concat _ _ Hf) as Hfc. rewrite E in Hfc.
    now apply framed_nil_inv in Hfc.
Qed.

(** C5: let [(21, p)] be the first media part of a stream of complete
    parts that is dispatched, [p] not empty.
    In one call of the state machine on a session whose buffer holds the
    stream (and then, possibly, an incomplete part): if no media part was
    dispatched in the session before ([firstMedia] false), [p] is appended
    without its leading zero byte when it has one, and as it is otherwise;
    if one was ([firstMedia] true), [p] is appended as it is.  Every later
    media payload is appended as it is, zero byte or not, and the flag is
    true afterwards in every case.
    In a decode of the stream, given as chunks of complete parts or as one
    buffer, the media returned is [p] without its leading zero byte
    followed by the later media payloads as they are. *)
Theorem first_media_leading_zero (s : Session) (mid tail left : list byte)
    (chunks : list (list byte)) (pss : list (list (Z * list byte)))
    (before after : list (Z * list byte)) (p : list byte) :
  buf s = mid ++ tail ->
  framed mid (before ++ (21, p) :: after) ->
  stalled tail left ->
  Forall2 framed chunks pss ->
  concat pss = before ++ (21, p) :: after ->
  headersDecode (before ++ (21, p) :: after) ->
  filter (dispatched 21) before = [] ->
  p <> [] ->
  (exists h,
     stateMachineParser s
     = Done ((h, None),
             mkSession left
               (mediaAcc s ++ (if firstMedia s then p else stripLeadingZero p)
                           ++ mediaPayloads after)
               true)) /\
  (exists h,
     ParseUMPChunks chunks
     = Done (mkUMPData h (stripLeadingZero p ++ mediaPayloads after), None) /\
     ParseUMPFull_returns (concat chunks)
       (mkUMPData h (stripLeadingZero p ++ mediaPayloads after), None)).
Proof.
  intros Hbuf Hf Hst Hfc Hcat Hdec Hno Hp.
  assert (Hd : dispatched 21 (21, p) = true)
    by (destruct p; [contradiction | apply dispatched_cons]).
  split.
  - destruct (runParts_decodes _ Hdec (None, mediaAcc s, firstMedia s))
      as [h [a [f Hrun]]].
    exists h. rewrite (stateMachineParser_stream s mid tail left _ h a f Hbuf Hf Hst Hrun).
    destruct (firstMedia s).
    + apply runParts_media_seen in Hrun. destruct Hrun as [-> ->].
      rewrite mediaPayloads_app, (mediaPayloads_none before Hno).
      unfold mediaPayloads at 1. cbn [filter]. rewrite Hd. reflexivity.
    + apply (runParts_first_media _ _ _ _ _ _ _ _ _ Hno Hd) in Hrun.
      now destruct Hrun as [-> ->].
  - destruct (runParts_decodes _ Hdec (None, [], false)) as [h [a [f Hrun]]].
    exists h.
    pose proof (runParts_first_media _ _ _ _ _ _ _ _ _ Hno Hd Hrun) as [Ha _].
    cbn [app] in Ha. rewrite <- Ha. rewrite <- Hcat in Hrun.
    destruct (framed_chunks_nonempty _ _ Hfc) as [Hne1 Hne2].
    { rewrite Hcat. now destruct before. }
    split.
    + now apply (ParseUMPChunks_framed chunks pss h a f).
    + exists 2%nat. apply (ParseUMPFull_framed _ (concat pss) h a f); auto.
      now apply framed_concat.
Qed.

(** C10: a media part of length zero adds nothing to the accumulator and
    leaves the flag false: a call on a buffer of such parts alone returns
    the session as it was, with the buffer emptied; and when they come
    before the first media part with a payload, that payload still loses
    its leading zero byte. *)
Theorem zero_length_media_keeps_flag (s : Session)
    (midz mid tail left : list byte)
    (zs after : list (Z * list byte)) (p : list byte) :
  buf s = midz ++ mid ++ tail ->
  firstMedia s = false ->
  Forall (fun z => z = (21, [])) zs ->
  framed midz zs ->
  framed mid ((21, p) :: after) ->
  p <> [] ->
  stalled tail left ->
  headersDecode after ->
  stateMachineParser (mkSession midz (mediaAcc s) false)
  = Done ((None, None), mkSession [] (mediaAcc s) false) /\
  exists h,
    stateMachineParser s
    = Done ((h, None),
            mkSession left
              (mediaAcc s ++ stripLeadingZero p ++ mediaPayloads after) true).
Proof.
  intros Hbuf Hfm Hzs Hfz Hf Hp Hst Hdec.
  destruct (zero_length_parts_inert zs Hzs) as [Hz21 [Hz20 Hzdec]].
  split.
  - destruct (runParts_decodes _ Hzdec (None, mediaAcc s, false)) as [h [a [f Hrun]]].
    rewrite (stateMachineParser_framed (mkSession midz (mediaAcc s) false) zs h a f Hfz Hrun).
    pose proof (runParts_no_media _ Hz21 _ _ _ _ _ _ Hrun) as [-> ->].
    now rewrite (runParts_no_header _ Hz20 _ _ _ _ _ _ Hrun).
  - assert (Hall : headersDecode (zs ++ (21, p) :: after)).
    { apply Forall_app. split; [exact Hzdec|]. constructor; [discriminate | exact Hdec]. }
    destruct (runParts_decodes _ Hall (None, mediaAcc s, firstMedia s))
      as [h [a [f Hrun]]].
    exists h.
    rewrite (stateMachineParser_stream s (midz ++ mid) tail left
               (zs ++ (21, p) :: after) h a f).
    + rewrite Hfm in Hrun.
      assert (Hd : dispatched 21 (21, p) = true)
        by (destruct p; [contradiction | apply dispatched_cons]).
      apply (runParts_first_media _ _ _ _ _ _ _ _ _ Hz21 Hd) in Hrun.
      now destruct Hrun as [-> ->].
    + now rewrite <- app_assoc.
    + now apply framed_app.
    + exact Hst.
    + exact Hrun.
Qed.

(** C9: when the chunks of a decode are made of complete parts, the
    header of the result is the record decoded from the last header part
    that is dispatched, alone: it does not depend on the header parts
    before it, in the same chunk or in earlier ones.  The whole-buffer
    entry point returns the same result on the concatenation. *)
Theorem last_header_wins (chunks : list (list byte))
    (pss : list (list (Z * list byte)))
    (before after : list (Z * list byte)) (p : list byte) (h : UMPMediaHeader) :
  Forall2 framed chunks pss ->
  concat pss = before ++ (20, p) :: after ->
  p <> [] ->
  headerPart p = inr h ->
  headersDecode before ->
  filter (dispatched 20) after = [] ->
  exists media,
    ParseUMPChunks chunks = Done (mkUMPData (Some h) media, None) /\
    ParseUMPFull_returns (concat chunks) (mkUMPData (Some h) media, None).
Proof.
  intros Hf Hcat Hp Hh Hdec Hno.
  assert (Hd : dispatched 20 (20, p) = true)
    by (destruct p; [contradiction | apply dispatched_cons]).
  assert (Hall : headersDecode (concat pss)).
  { rewrite Hcat. apply Forall_app. split; [exact Hdec|]. constructor.
    - intros _. now exists h.
    - clear Hcat. induction after as [|q after IH]; constructor.
      + intros Hq. cbn [filter] in Hno. rewrite Hq in Hno. discriminate.
      + apply IH. cbn [filter] in Hno. now destruct (dispatched 20 q). }
  destruct (runParts_decodes _ Hall (None, [], false)) as [h1 [a [f Hrun]]].
  assert (Hh1 : h1 = Some h).
  { pose proof Hrun as Hrun'. rewrite Hcat in Hrun'.
    destruct (runParts_last_header _ _ _ _ _ _ _ _ _ _ Hd Hno Hrun') as [h' [E ->]].
    congruence. }
  subst h1. exists a.
  assert (Hne : concat chunks <> []).
  { intros E. pose proof (framed_concat _ _ Hf) as Hfc. rewrite E in Hfc.
    apply framed_nil_inv in Hfc. rewrite Hcat in Hfc. now destruct before. }
  split.
  - apply (ParseUMPChunks_framed chunks pss (Some h) a f); auto.
    intros ->. now apply Hne.
  - exists 2%nat.
    apply (ParseUMPFull_framed (concat chunks) (concat pss) (Some h) a f); auto.
    now apply framed_concat.
Qed.

End ParserProperties.

(** ** The entry points on inputs that are not made of complete parts *)

Section Defects.

Context {codec : MediaHeaderProto}.

(** A buffer on which a call of the state machine changes nothing keeps
    the loop of [ParseUMPFull] turning for ever. *)
Lemma fullLoop_stuck (s : Session) :
  buf s <> [] ->
  stateMachineParser s = Done ((None, None), s) ->
  forall (fuel : nat) (hdr : option UMPMediaHeader), fullLoop fuel s hdr = OutOfFuel.
Proof.
  intros Hne Hfix. induction fuel as [|fuel IH]; intros hdr; [reflexivity|].
  cbn [fullLoop].
  assert (Hpos : (len (buf s) >? 0) = true).
  { destruct (buf s) as [|b tl]; [contradiction|].
    unfold len. cbn [length]. destruct (Z.gtb_spec (Z.of_nat (S (length tl))) 0);
      [reflexivity | lia]. }
  rewrite Hpos, Hfix. cbn [bind]. apply IH.
Qed.

(** The only error a call of the state machine returns is the one of the
    header message; an error of [readVarInt] never leaves it. *)
Lemma stateMachineParser_errors (s s' : Session) (h : option UMPMediaHeader)
    (e : error) :
  stateMachineParser s = Done ((h, Some e), s') ->
  exists cause, e = ErrUnmarshalHeader cause.
Proof.
  unfold stateMachineParser.
  assert (H : forall fuel data v err v',
             parseLoop fuel data v = Done (Return err v') ->
             exists cause, err = ErrUnmarshalHeader cause).
  { induction fuel as [|fuel IH]; intros data v err v' E; [discriminate|].
    cbn [parseLoop] in E.
    destruct (offset v >=? len data); [discriminate|].
    destruct (readVarInt data (offset v)) as [[[partType err1] offset1]| |];
      cbn [bind] in E; try discriminate.
    destruct err1; [discriminate|].
    destruct (readVarInt data offset1) as [[[partSize err2] offset2]| |];
      cbn [bind] in E; try discriminate.
    destruct err2; [discriminate|].
    destruct (partSize =? 0); [now apply IH in E|].
    destruct (offset2 + partSize >? len data); [discriminate|].
    destruct (slice data offset2 (offset2 + partSize)) as [payload| |];
      cbn [bind] in E; try discriminate.
    destruct (partType =? 20).
    - unfold headerPart in E. destruct (Unmarshal payload) as [[c|] m].
      + injection E as <- _. eauto.
      + destruct (if partType =? 21 then _ else _) as [[acc first]| |];
          cbn [bind] in E; try discriminate. now apply IH in E.
    - destruct (if partType =? 21 then _ else _) as [[acc first]| |];
        cbn [bind] in E; try discriminate. now apply IH in E. }
  destruct (parseLoop _ _ _) as [[v|err v]| |] eqn:E; cbn [bind]; try discriminate.
  intros [= _ <- _]. now apply H in E.
Qed.

(** C1 (the code differs): the four bytes [21, 2, 'A', 'B'] are one media
    part; [ParseUMPFull] returns its payload as the media, while
    [ParseUMPChunks] returns no media at each of the three places where
    the bytes can be cut in two: after a cut inside the part the call on
    the first chunk drops the bytes of the part it has read, and the next
    call takes the rest of the part for a new header. *)
Theorem chunk_split_loses_media :
  ParseUMPFull_returns [x15; x02; x41; x42] (mkUMPData None [x41; x42], None) /\
  ParseUMPChunks [[x15]; [x02; x41; x42]] = Done (mkUMPData None [], None) /\
  ParseUMPChunks [[x15; x02]; [x41; x42]] = Done (mkUMPData None [], None) /\
  ParseUMPChunks [[x15; x02; x41]; [x42]] = Done (mkUMPData None [], None).
Proof.
  split; [exists 2%nat; reflexivity|]. repeat split; reflexivity.
Qed.

(** C2 (the code differs): on the buffer [21, 2, 'A'], a complete header
    of a media part of two bytes and one byte of payload, the loop stops
    with the cursor 2, after the header, and the call leaves only ['A'] in
    the buffer; the accumulator and the header are unchanged.  After the
    missing byte ['B'] is appended, the next call reads ['A'] and ['B'] as a
    type and a length, and the part is never completed, whereas a call on
    the four bytes together appends its payload. *)
Theorem incomplete_payload_drops_header :
  parseLoop 4 [x15; x02; x41] (mkVars 0 None [] false)
  = Done (Break (mkVars 2 None [] false)) /\
  stateMachineParser (mkSession [x15; x02; x41] [] false)
  = Done ((None, None), mkSession [x41] [] false) /\
  stateMachineParser (mkSession ([x41] ++ [x42]) [] false)
  = Done ((None, None), mkSession [] [] false) /\
  stateMachineParser (mkSession ([x15; x02; x41] ++ [x42]) [] false)
  = Done ((None, None), mkSession [] [x41; x42] true).
Proof. repeat split; reflexivity. Qed.

(** C3 (the code differs): on the one byte [0x80], the first byte of a
    two-byte varint, each call of the state machine leaves the buffer as
    it is, so the loop of [ParseUMPFull] does not end: no amount of fuel
    gives a result.  The same holds after a part header whose two-byte
    length is cut, [21, 0x81]. *)
Theorem ParseUMPFull_diverges :
  (forall fuel, ParseUMPFull fuel [x80] = OutOfFuel) /\
  (forall r, ~ ParseUMPFull_returns [x80] r) /\
  (forall r, ~ ParseUMPFull_returns [x15; x81] r).
Proof.
  assert (H80 : forall fuel hdr, fullLoop fuel (mkSession [x80] [] false) hdr = OutOfFuel)
    by (apply fullLoop_stuck; [discriminate | reflexivity]).
  assert (H81 : forall fuel hdr, fullLoop fuel (mkSession [x81] [] false) hdr = OutOfFuel)
    by (apply fullLoop_stuck; [discriminate | reflexivity]).
  split; [|split].
  - intros fuel. apply H80.
  - intros r [fuel E]. unfold ParseUMPFull in E. cbn [len length Z.of_nat Z.eqb] in E.
    cbv iota in E. now rewrite H80 in E.
  - intros r [fuel E]. destruct fuel as [|fuel]; [discriminate|].
    change (fullLoop fuel (mkSession [x81] [] false) None = Done r) in E.
    now rewrite H81 in E.
Qed.

(** C4 (the code differs): on the byte [0xF8], whose five top bits are
    set, [readVarInt] returns the invalid-varint error with the position,
    but the state machine leaves its loop as it does for missing data and
    returns no error, so [ParseUMPChunks] returns an empty result without
    error, also when the byte comes after a complete part, and
    [ParseUMPFull] never returns. *)
Theorem malformed_varint_absorbed :
  readVarInt [xf8] 0 = Done ((0, Some (ErrInvalidVarint 0)), 0) /\
  stateMachineParser (mkSession [xf8] [] false)
  = Done ((None, None), mkSession [xf8] [] false) /\
  ParseUMPChunks [[xf8]] = Done (mkUMPData None [], None) /\
  ParseUMPChunks [[x15; x01; x41; xf8]] = Done (mkUMPData None [x41], None) /\
  (forall r, ~ ParseUMPFull_returns [xf8] r).
Proof.
  repeat split; try reflexivity.
  intros r [fuel E]. unfold ParseUMPFull in E.
  cbn [len length Z.of_nat Z.eqb] in E. cbv iota in E.
  rewrite fullLoop_stuck in E; [discriminate | discriminate | reflexivity].
Qed.

(** C8 (the code differs): no chunk at all and an empty whole buffer give
    the no-data error at once, but one empty chunk is skipped by the loop
    and [ParseUMPChunks] returns an empty result without error. *)
Theorem empty_chunk_is_not_an_error :
  ParseUMPChunks [] = Done (UMPData_zero, Some ErrNoDataToParse) /\
  (forall fuel, ParseUMPFull fuel [] = Done (UMPData_zero, Some ErrNoDataToParse)) /\
  ParseUMPChunks [[]] = Done (mkUMPData None [], None).
Proof. repeat split; reflexivity. Qed.

End Defects.

(** ** The theorems at concrete inputs *)

(** A part whose type and length take one byte each. *)
Lemma framed_short (t l : byte) (ty : Z) (payload rest : list byte)
    (ps : list (Z * list byte)) :
  readVarInt [t] 0 = Done ((ty, None), 1) ->
  readVarInt [l] 0 = Done ((len payload, None), 1) ->
  framed rest ps ->
  framed (t :: l :: payload ++ rest) ((ty, payload) :: ps).
Proof. intros Ht Hl Hf. now apply (framed_cons [t] [l]). Qed.

Lemma first_media_leading_zero_witness :
  (exists h,
     @stateMachineParser wireProto
       (mkSession [x15; x03; x00; x41; x42; x15; x02; x00; x43; x80] [] false)
     = Done ((h, None), mkSession [x80] [x41; x42; x00; x43] true)) /\
  (exists h,
     @ParseUMPChunks wireProto [[x15; x03; x00; x41; x42]; [x15; x02; x00; x43]]
     = Done (mkUMPData h [x41; x42; x00; x43], None) /\
     @ParseUMPFull_returns wireProto
       (concat [[x15; x03; x00; x41; x42]; [x15; x02; x00; x43]])
       (mkUMPData h [x41; x42; x00; x43], None)).
Proof.
  apply (@first_media_leading_zero wireProto
           (mkSession [x15; x03; x00; x41; x42; x15; x02; x00; x43; x80] [] false)
           [x15; x03; x00; x41; x42; x15; x02; x00; x43] [x80] [x80]
           [[x15; x03; x00; x41; x42]; [x15; x02; x00; x43]]
           [[(21, [x00; x41; x42])]; [(21, [x00; x43])]]
           [] [(21, [x00; x43])] [x00; x41; x42]).
  - reflexivity.
  - apply (framed_short x15 x03 21 [x00; x41; x42]); [reflexivity | reflexivity |].
    apply (framed_short x15 x02 21 [x00; x43]); [reflexivity | reflexivity |].
    apply framed_nil.
  - apply (stalled_type [x80] 0 ErrIncompleteVarint 0). reflexivity.
  - constructor; [|constructor; [|constructor]].
    + apply (framed_short x15 x03 21 [x00; x41; x42]); [reflexivity | reflexivity |].
      apply framed_nil.
    + apply (framed_short x15 x02 21 [x00; x43]); [reflexivity | reflexivity |].
      apply framed_nil.
  - reflexivity.
  - repeat constructor; discriminate.
  - reflexivity.
  - discriminate.
Defined.

Lemma zero_length_media_keeps_flag_witness :
  @stateMachineParser wireProto (mkSession [x15; x00; x15; x00] [] false)
  = Done ((None, None), mkSession [] [] false) /\
  exists h,
    @stateMachineParser wireProto
      (mkSession [x15; x00; x15; x00; x15; x03; x00; x41; x42; x15; x02; x00; x43]
                 [] false)
    = Done ((h, None), mkSession [] [x41; x42; x00; x43] true).
Proof.
  apply (@zero_length_media_keeps_flag wireProto
           (mkSession [x15; x00; x15; x00; x15; x03; x00; x41; x42; x15; x02; x00; x43]
                      [] false)
           [x15; x00; x15; x00] [x15; x03; x00; x41; x42; x15; x02; x00; x43] [] []
           [(21, []); (21, [])] [(21, [x00; x43])] [x00; x41; x42]).
  - reflexivity.
  - reflexivity.
  - repeat constructor.
  - apply (framed_short x15 x00 21 []); [reflexivity | reflexivity |].
    apply (framed_short x15 x00 21 []); [reflexivity | reflexivity |].
    apply framed_nil.
  - apply (framed_short x15 x03 21 [x00; x41; x42]); [reflexivity | reflexivity |].
    apply (framed_short x15 x02 21 [x00; x43]); [reflexivity | reflexivity |].
    apply framed_nil.
  - discriminate.
  - apply (stalled_type [] 0 ErrNoDataAvailable 0). reflexivity.
  - repeat constructor; discriminate.
Defined.

Lemma last_header_wins_witness :
  exists media,
    @ParseUMPChunks wireProto
      [[x14; x0a; x12; x03; x61; x62; x63; x18; x8c; x01; x20; x01;
        x15; x02; x41; x42];
       [x14; x0a; x12; x03; x78; x79; x7a; x18; xfb; x01; x20; x02]]
    = Done (mkUMPData (Some (mkUMPMediaHeader "xyz" 251 2)) media, None) /\
    @ParseUMPFull_returns wireProto
      (concat
         [[x14; x0a; x12; x03; x61; x62; x63; x18; x8c; x01; x20; x01;
           x15; x02; x41; x42];
          [x14; x0a; x12; x03; x78; x79; x7a; x18; xfb; x01; x20; x02]])
      (mkUMPData (Some (mkUMPMediaHeader "xyz" 251 2)) media, None).
Proof.
  apply (@last_header_wins wireProto _
           [[(20, [x12; x03; x61; x62; x63; x18; x8c; x01; x20; x01]);
             (21, [x41; x42])];
            [(20, [x12; x03; x78; x79; x7a; x18; xfb; x01; x20; x02])]]
           [(20, [x12; x03; x61; x62; x63; x18; x8c; x01; x20; x01]);
            (21, [x41; x42])]
           []
           [x12; x03; x78; x79; x7a; x18; xfb; x01; x20; x02]).
  - constructor; [|constructor; [|constructor]].
    + apply (framed_short x14 x0a 20 [x12; x03; x61; x62; x63; x18; x8c; x01; x20; x01]);
        [reflexivity | reflexivity |].
      apply (framed_short x15 x02 21 [x41; x42]); [reflexivity | reflexivity |].
      apply framed_nil.
    + apply (framed_short x14 x0a 20 [x12; x03; x78; x79; x7a; x18; xfb; x01; x20; x02]);
        [reflexivity | reflexivity |].
      apply framed_nil.
  - reflexivity.
  - discriminate.
  - reflexivity.
  - constructor; [|constructor; [|constructor]].
    + intros _. eexists. reflexivity.
    + discriminate.
  - reflexivity.
Defined.

(** ** The documented test cases *)

(** One encoding of each size class, and a first byte with its five top
    bits set. *)
Example readVarInt_size_classes :
  readVarInt [x7f] 0 = Done ((127, None), 1) /\
  readVarInt [xbf; x02] 0 = Done ((63 + 2 * 64, None), 2) /\
  readVarInt [xdf; x01; x01] 0 = Done ((31 + 32 + 8192, None), 3) /\
  readVarInt [xef; x00; x00; x01] 0 = Done ((15 + 1048576, None), 4) /\
  readVarInt [xf7; x01; x00; x00; x80] 0 = Done ((1 + 2147483648, None), 5) /\
  readVarInt [xff; x01; x00; x00; x80] 0 = Done ((0, Some (ErrInvalidVarint 0)), 0).
Proof. repeat split; reflexivity. Qed.

(** The leading-zero rule on the payloads [0, 'A', 'B'] and [0, 'C'], in
    one buffer and in two chunks cut between the parts. *)
Example first_media_example :
  @ParseUMPFull wireProto 2 [x15; x03; x00; x41; x42; x15; x02; x00; x43]
  = Done (mkUMPData None [x41; x42; x00; x43], None) /\
  @ParseUMPChunks wireProto [[x15; x03; x00; x41; x42]; []; [x15; x02; x00; x43]]
  = Done (mkUMPData None [x41; x42; x00; x43], None).
Proof. split; reflexivity. Qed.

(** A part of length zero is skipped, whatever its type. *)
Example zero_length_part_example :
  @ParseUMPFull wireProto 2 [x14; x00; x15; x00; x07; x00; x15; x01; x41]
  = Done (mkUMPData None [x41], None).
Proof. reflexivity. Qed.

(** Two header parts: the second record is the one returned.  A header
    payload that is not a sequence of fields aborts the decode. *)
Example header_overwrite_example :
  @ParseUMPFull wireProto 2
    [x14; x0a; x12; x03; x61; x62; x63; x18; x8c; x01; x20; x01;
     x14; x0a; x12; x03; x78; x79; x7a; x18; xfb; x01; x20; x02]
  = Done (mkUMPData (Some (mkUMPMediaHeader "xyz" 251 2)) [], None) /\
  @ParseUMPFull wireProto 2 [x15; x01; x41; x14; x02; x12; x03]
  = Done (UMPData_zero,
          Some (ErrParseUMP (ErrUnmarshalHeader
                  (ErrProto "cannot parse invalid wire-format data")))).
Proof. split; reflexivity. Qed.

(** * Further properties of the codec and the parser *)

(** ** Varint codec *)

(** A successful read is the table value of the bytes it covers. *)
Lemma readVarInt_ok_shape (data : list byte) (off v off' : Z) :
  0 <= off -> readVarInt data off = Done ((v, None), off') ->
  exists pre enc post b0,
    data = pre ++ enc ++ post /\ len pre = off /\ len enc = off' - off /\
    nth_error enc 0 = Some b0 /\ getVarIntSize b0 = len enc /\
    tableSize (leadingOnes b0) = Some (len enc) /\ v = tableValue enc.
Proof.
  intros Hoff E. pose proof (readVarInt_outcome_holds data off Hoff) as R.
  rewrite E in R.
  inversion R as [ | | | first v' Hf Hs Hle Hv [Ev Eo]]. subst v'.
  set (size := getVarIntSize first) in *.
  apply index_Done in Hf. destruct Hf as [Hin Hf].
  set (r := skipn (Z.to_nat off) data).
  exists (firstn (Z.to_nat off) data), (firstn (Z.to_nat size) r),
         (skipn (Z.to_nat size) r), first.
  assert (Hpre : len (firstn (Z.to_nat off) data) = off)
    by (unfold len in *; rewrite length_firstn; lia).
  assert (Hr : len r = len data - off)
    by (unfold r, len in *; rewrite length_skipn; lia).
  assert (Henc : len (firstn (Z.to_nat size) r) = size)
    by (unfold len in *; rewrite length_firstn; lia).
  assert (Hdata : data = firstn (Z.to_nat off) data
                         ++ firstn (Z.to_nat size) r ++ skipn (Z.to_nat size) r)
    by (rewrite (firstn_skipn (Z.to_nat size) r); unfold r;
        now rewrite firstn_skipn).
  assert (H0 : nth_error (firstn (Z.to_nat size) r) 0 = Some first).
  { assert (Hr0 : nth_error r 0 = Some first).
    { unfold r. rewrite nth_error_skipn. now rewrite Nat.add_0_r. }
    destruct r as [|b t]; [discriminate|].
    destruct (Z.to_nat size) as [|k] eqn:Ek; [lia|]. exact Hr0. }
  assert (Ht : tableSize (leadingOnes first) = Some size).
  { pose proof (getVarIntSize_leadingOnes first) as G. unfold tableSize. fold size in G.
    destruct (leadingOnes first <=? 4); [f_equal; lia | lia]. }
  split; [exact Hdata|]. split; [exact Hpre|]. split; [lia|].
  split; [exact H0|]. split; [now rewrite Henc|]. split; [now rewrite Henc|].
  destruct (readVarInt_table_at (firstn (Z.to_nat off) data) _
              (skipn (Z.to_nat size) r) first size H0 Ht Henc) as [_ E1].
  rewrite <- Hdata, Hpre, E in E1. now injection E1.
Qed.

Lemma littleEndian_below (bs : list byte) :
  0 <= littleEndian bs < 256 ^ len bs.
Proof.
  induction bs as [|b bs IH].
  - cbn. lia.
  - cbn [littleEndian]. pose proof (int_of_byte_range b).
    replace (len (b :: bs)) with (1 + len bs) by (unfold len; cbn [length]; lia).
    rewrite Z.pow_add_r by (pose proof (len_nonneg bs); lia).
    change (256 ^ 1) with 256. lia.
Qed.

(** X1: the size [getVarIntSize] returns, by the range of the first byte:
    1 below 0x80, 2 below 0xC0, 3 below 0xE0, 4 below 0xF0, 5 below 0xF8,
    and 0, the mark of an invalid varint, from 0xF8 on. *)
Theorem getVarIntSize_by_range (b : byte) :
  getVarIntSize b
  = if int_of_byte b <? 0x80 then 1
    else if int_of_byte b <? 0xC0 then 2
    else if int_of_byte b <? 0xE0 then 3
    else if int_of_byte b <? 0xF0 then 4
    else if int_of_byte b <? 0xF8 then 5
    else 0.
Proof. destruct b; vm_compute; reflexivity. Qed.

Lemma tableValue_below (enc : list byte) (b0 : byte) :
  nth_error enc 0 = Some b0 ->
  tableSize (leadingOnes b0) = Some (len enc) ->
  0 <= tableValue enc < 2 ^ Z.min 32 (7 * len enc).
Proof.
  intros Hb0 Hsize.
  rewrite (tableValue_little_endian enc b0 Hb0 Hsize).
  unfold tableSize in Hsize. pose proof (leadingOnes_range b0) as Hrange.
  destruct (Z.leb_spec (leadingOnes b0) 4) as [Hones|]; [|discriminate].
  injection Hsize as Hsize.
  destruct enc as [|c0 enc]; [discriminate|]. cbn [tl].
  assert (Htl : len enc = leadingOnes b0)
    by (unfold len in *; cbn [length] in Hsize; lia).
  pose proof (littleEndian_below enc) as HLE. rewrite Htl in HLE.
  rewrite <- Hsize.
  assert (Hones' : leadingOnes b0 = 0 \/ leadingOnes b0 = 1 \/ leadingOnes b0 = 2 \/
                   leadingOnes b0 = 3 \/ leadingOnes b0 = 4) by lia.
  destruct Hones' as [L|[L|[L|[L|L]]]]; rewrite L in HLE |- *;
    [change (lowBits 0) with 7 | change (lowBits 1) with 6 | change (lowBits 2) with 5
     | change (lowBits 3) with 4 | change (lowBits 4) with 0];
    match goal with
    | |- context [int_of_byte b0 mod 2 ^ ?k] =>
        pose proof (Z.mod_pos_bound (int_of_byte b0) (2 ^ k) eq_refl) as Hmod
    end;
    clear Hsize Hb0 Htl L;
    repeat match goal with
      | |- context [?a ^ ?b] =>
          let x := eval vm_compute in (a ^ b) in progress change (a ^ b) with x
      | H : context [?a ^ ?b] |- _ =>
          let x := eval vm_compute in (a ^ b) in progress change (a ^ b) with x in H
      end;
    lia.
Qed.

(** X2: a value [readVarInt] returns from an encoding of [k] bytes, [k]
    from 1 to 5, is below [2^(7k)] for [k] up to 4 and below [2^32] for a
    5-byte encoding; it is never negative. *)
Theorem readVarInt_value_by_size (data : list byte) (off v off' : Z) :
  0 <= off -> readVarInt data off = Done ((v, None), off') ->
  1 <= off' - off <= 5 /\ 0 <= v < 2 ^ Z.min 32 (7 * (off' - off)).
Proof.
  intros Hoff E.
  destruct (readVarInt_ok_shape data off v off' Hoff E)
    as [pre [enc [post [b0 [_ [_ [Hlen [Hb0 [Hsz [Ht ->]]]]]]]]]].
  rewrite <- Hlen. split.
  - pose proof (getVarIntSize_cases b0). pose proof (leadingOnes_range b0).
    unfold tableSize in Ht. destruct (leadingOnes b0 <=? 4) eqn:L; [|discriminate].
    apply Z.leb_le in L. injection Ht as Ht. lia.
  - now apply tableValue_below with b0.
Qed.

Lemma readVarInt_value_by_size_witness :
  1 <= 3 - 1 <= 5 /\ 0 <= 16383 < 2 ^ Z.min 32 (7 * (3 - 1)).
Proof.
  apply (readVarInt_value_by_size [x15; xbf; xff; x00] 1 16383 3); [lia | reflexivity].
Defined.

(** X3: decoding is local: a varint decodes at a position of a slice
    exactly when the bytes it covers decode on their own, to the same
    value, whatever comes before and after them. *)
Theorem readVarInt_local (pre enc post : list byte) (v : Z) :
  readVarInt (pre ++ enc ++ post) (len pre) = Done ((v, None), len pre + len enc)
  <-> readVarInt enc 0 = Done ((v, None), len enc).
Proof.
  split; [|apply readVarInt_framed].
  intros E. pose proof (len_nonneg pre) as Hpre.
  destruct (readVarInt_ok_shape _ _ _ _ Hpre E)
    as [pre' [enc' [post' [b0 [Hd [Hl1 [Hl2 [Hb0 [_ [Ht Hv]]]]]]]]]].
  assert (Hpre' : pre' = pre /\ enc' ++ post' = enc ++ post).
  {     assert (Hlen : length pre' = length pre) by (unfold len in Hl1; lia).
    symmetry in Hd. destruct (app_eq_app _ _ _ _ Hd) as [l [[H1 H2]|[H1 H2]]].
    - rewrite H1, length_app in Hlen. assert (l = []) by (destruct l; [reflexivity | cbn in Hlen; lia]).
      subst l. rewrite app_nil_r in H1. cbn [app] in H2. auto.
    - rewrite H1, length_app in Hlen. assert (l = []) by (destruct l; [reflexivity | cbn in Hlen; lia]).
      subst l. rewrite app_nil_r in H1. cbn [app] in H2. auto. }
  destruct Hpre' as [-> Hd2].
  assert (Henc : enc' = enc).
  { assert (Hlen : length enc' = length enc) by (unfold len in Hl2; lia).
    destruct (app_eq_app _ _ _ _ Hd2) as [l [[H1 H2]|[H1 H2]]].
    - rewrite H1, length_app in Hlen. assert (l = []) by (destruct l; [reflexivity | cbn in Hlen; lia]).
      subst l. now rewrite app_nil_r in H1.
    - rewrite H1, length_app in Hlen. assert (l = []) by (destruct l; [reflexivity | cbn in Hlen; lia]).
      subst l. now rewrite app_nil_r in H1. }
  subst enc'.
  destruct (readVarInt_table_at [] enc [] b0 (len enc) Hb0 Ht eq_refl) as [_ E0].
  cbn [app] in E0. rewrite app_nil_r in E0. change (len []) with 0 in E0.
  rewrite E0, Hv. reflexivity.
Qed.

Lemma readVarInt_self_shape (enc : list byte) (v : Z) :
  readVarInt enc 0 = Done ((v, None), len enc) ->
  exists b0, nth_error enc 0 = Some b0 /\
             tableSize (leadingOnes b0) = Some (len enc) /\ v = tableValue enc.
Proof.
  intros E.
  destruct (readVarInt_ok_shape enc 0 v (len enc) (Z.le_refl 0) E)
    as [pre [enc' [post [b0 [Hd [Hl1 [Hl2 [Hb0 [_ [Ht Hv]]]]]]]]]].
  assert (pre = []) by (destruct pre; [reflexivity | unfold len in Hl1; cbn in Hl1; lia]).
  subst pre. cbn [app] in Hd.
  assert (post = []).
  { assert (Hlen : len enc = len enc' + len post) by (rewrite Hd at 1; apply len_app).
    destruct post; [reflexivity | unfold len in *; cbn [length] in *; lia]. }
  subst post. rewrite app_nil_r in Hd. subst enc'. now exists b0.
Qed.

Lemma int_of_byte_inj (a b : byte) : int_of_byte a = int_of_byte b -> a = b.
Proof.
  unfold int_of_byte. intros H. apply N2Z.inj in H.
  apply (f_equal Byte.of_N) in H. rewrite !Byte.of_to_N in H. now injection H.
Qed.

Lemma littleEndian_inj (l1 : list byte) :
  forall l2, length l1 = length l2 -> littleEndian l1 = littleEndian l2 -> l1 = l2.
Proof.
  induction l1 as [|a l1 IH]; intros [|b l2] Hlen H; try discriminate; [reflexivity|].
  cbn [littleEndian] in H.
  pose proof (int_of_byte_range a). pose proof (int_of_byte_range b).
  assert (int_of_byte a = int_of_byte b /\ littleEndian l1 = littleEndian l2) as [Hab Hl] by lia.
  f_equal; [now apply int_of_byte_inj | apply IH; [now injection Hlen | exact Hl]].
Qed.

Lemma byte_from_low_bits (b : byte) :
  leadingOnes b <= 3 ->
  int_of_byte b
  = 256 - 2 ^ (8 - leadingOnes b) + int_of_byte b mod 2 ^ lowBits (leadingOnes b).
Proof.
  destruct b; vm_compute; intros H; try reflexivity; exfalso; apply H; reflexivity.
Qed.

(** X4: among the encodings of one size, decoding is one-to-one up to the
    bits it ignores: two encodings of the same size that decode to the same
    value have the same continuation bytes, and are the same encoding when
    the size is at most 4 (in the 5-byte class the three low bits of byte 0
    are free). *)
Theorem readVarInt_same_size_inj (enc1 enc2 : list byte) (v : Z) :
  readVarInt enc1 0 = Done ((v, None), len enc1) ->
  readVarInt enc2 0 = Done ((v, None), len enc2) ->
  len enc1 = len enc2 ->
  tl enc1 = tl enc2 /\ (len enc1 <= 4 -> enc1 = enc2).
Proof.
  intros E1 E2 Hlen.
  destruct (readVarInt_self_shape _ _ E1) as [a [Ha [Hta Hva]]].
  destruct (readVarInt_self_shape _ _ E2) as [b [Hb [Htb Hvb]]].
  rewrite (tableValue_little_endian _ _ Ha Hta) in Hva.
  rewrite (tableValue_little_endian _ _ Hb Htb) in Hvb.
  unfold tableSize in Hta, Htb.
  pose proof (leadingOnes_range a) as Ra. pose proof (leadingOnes_range b) as Rb.
  destruct (Z.leb_spec (leadingOnes a) 4) as [La|]; [|discriminate].
  destruct (Z.leb_spec (leadingOnes b) 4) as [Lb|]; [|discriminate].
  injection Hta as Hta. injection Htb as Htb.
  assert (Hones : leadingOnes b = leadingOnes a) by lia.
  destruct enc1 as [|a' t1]; [discriminate|]. injection Ha as ->.
  destruct enc2 as [|b' t2]; [discriminate|]. injection Hb as ->.
  cbn [tl] in *.
  assert (Htl : length t1 = length t2) by (unfold len in Hlen; cbn [length] in Hlen; lia).
  pose proof (byte_from_low_bits a) as Fa. pose proof (byte_from_low_bits b) as Fb.
  rewrite Hones in Hvb, Fb, Htb.
  pose proof (littleEndian_below t1) as B1. pose proof (littleEndian_below t2) as B2.
  assert (Hl1 : len t1 = leadingOnes a) by (unfold len in *; cbn [length] in Hta; lia).
  assert (Hcore : int_of_byte a mod 2 ^ lowBits (leadingOnes a)
                  = int_of_byte b mod 2 ^ lowBits (leadingOnes a) /\
                  littleEndian t1 = littleEndian t2).
  { assert (Hones' : leadingOnes a = 0 \/ leadingOnes a = 1 \/ leadingOnes a = 2 \/
                     leadingOnes a = 3 \/ leadingOnes a = 4) by lia.
    clear Fa Fb B1 B2.
    destruct Hones' as [L|[L|[L|[L|L]]]]; rewrite L in Hva, Hvb |- *;
      [change (lowBits 0) with 7 in * | change (lowBits 1) with 6 in *
       | change (lowBits 2) with 5 in * | change (lowBits 3) with 4 in *
       | change (lowBits 4) with 0 in *];
      match goal with
      | |- context [int_of_byte a mod 2 ^ ?k] =>
          pose proof (Z.mod_pos_bound (int_of_byte a) (2 ^ k) eq_refl) as Hma;
          pose proof (Z.mod_pos_bound (int_of_byte b) (2 ^ k) eq_refl) as Hmb
      end;
      repeat match goal with
        | |- context [2 ^ ?k] =>
            let x := eval vm_compute in (2 ^ k) in progress change (2 ^ k) with x
        | H : context [2 ^ ?k] |- _ =>
            let x := eval vm_compute in (2 ^ k) in progress change (2 ^ k) with x in H
        end;
      lia. }
  destruct Hcore as [Hlow HLE].
  assert (Ht : t1 = t2) by (now apply littleEndian_inj).
  split; [exact Ht|]. intros H4.
  assert (L3 : leadingOnes a <= 3) by (unfold len in H4; cbn [length] in H4; unfold len in Hl1; lia).
  f_equal; [|exact Ht]. apply int_of_byte_inj.
  rewrite (Fa L3), (Fb L3), Hlow. reflexivity.
Qed.

Lemma readVarInt_same_size_inj_witness :
  tl [xf0; x01; x00; x00; x00] = tl [xf7; x01; x00; x00; x00] /\
  (len [xf0; x01; x00; x00; x00] <= 4 ->
   [xf0; x01; x00; x00; x00] = [xf7; x01; x00; x00; x00]).
Proof.
  apply (readVarInt_same_size_inj
           [xf0; x01; x00; x00; x00] [xf7; x01; x00; x00; x00] 1); reflexivity.
Defined.

(** ** Stream state machine *)

Section MoreParserProperties.

Context {codec : MediaHeaderProto}.

(** What every run of the loop keeps: the cursor moves forward inside the
    buffer, the accumulator is extended by no more bytes than the cursor
    passed, a flag that is set stays set, and a run that ends where it
    started has changed nothing. *)
Lemma parseLoop_invariant (fuel : nat) :
  forall (data : list byte) (v : loopVars) (e : loopExit),
    0 <= offset v <= len data -> parseLoop fuel data v = Done e ->
    offset v <= offset (exitVars e) <= len data /\
    (exists added, accV (exitVars e) = accV v ++ added /\
                   len added <= offset (exitVars e) - offset v) /\
    (firstV v = true -> firstV (exitVars e) = true) /\
    (offset (exitVars e) = offset v -> e = Break v).
Proof.
  induction fuel as [|fuel IH]; intros data v e Hoff E; [discriminate|].
  assert (Hsame : forall o, o = offset v ->
            offset v <= offset (mkVars o (umpHeader v) (accV v) (firstV v)) <= len data /\
            (exists added, accV (mkVars o (umpHeader v) (accV v) (firstV v)) = accV v ++ added /\
               len added <= offset (mkVars o (umpHeader v) (accV v) (firstV v)) - offset v) /\
            (firstV v = true -> firstV (mkVars o (umpHeader v) (accV v) (firstV v)) = true) /\
            (offset (mkVars o (umpHeader v) (accV v) (firstV v)) = offset v ->
             Break (mkVars o (umpHeader v) (accV v) (firstV v)) = Break v)).
  { intros o ->. cbn. repeat split; try lia; auto.
    - exists []. rewrite app_nil_r. split; [reflexivity | cbn; lia].
    - intros _. now destruct v. }
  cbn [parseLoop] in E.
  destruct (Z.geb_spec (offset v) (len data)) as [Hge|Hlt].
  { injection E as <-. cbn [exitVars]. repeat split; try lia; auto.
    exists []. rewrite app_nil_r. split; [reflexivity | cbn; lia]. }
  destruct (readVarInt data (offset v)) as [[[partType [e1|]] offset1]| |] eqn:E1;
    cbn [bind] in E; try discriminate.
  { apply readVarInt_err_keeps in E1; [|lia]. injection E as <-. cbn [exitVars].
    now apply Hsame. }
  pose proof (readVarInt_ok_advances _ _ _ _ (proj1 Hoff) E1) as H1.
  destruct (readVarInt data offset1) as [[[partSize [e2|]] offset2]| |] eqn:E2;
    cbn [bind] in E; try discriminate.
  { apply readVarInt_err_keeps in E2; [|lia]. injection E as <-. cbn. repeat split; try lia; auto.
    exists []. rewrite app_nil_r. split; [reflexivity | cbn; lia]. }
  pose proof (readVarInt_ok_advances _ _ _ _ (ltac:(lia) : 0 <= offset1) E2) as H2.
  pose proof (readVarInt_value_bound _ _ _ _ (ltac:(lia) : 0 <= offset1) E2) as Hsz.
  destruct (Z.eqb_spec partSize 0) as [Hz|Hnz].
  { apply IH in E; [|cbn [offset]; lia].
    cbn [offset accV firstV] in E. destruct E as [Ho [[added [Ha Hl]] [Hf Hfix]]].
    repeat split; try lia; auto.
    exists added. split; [exact Ha | lia]. }
  destruct (Z.gtb_spec (offset2 + partSize) (len data)) as [Hgt|Hfit].
  { injection E as <-. cbn. repeat split; try lia; auto.
    exists []. rewrite app_nil_r. split; [reflexivity | cbn; lia]. }
  destruct (slice_in_range data offset2 (offset2 + partSize)) as [payload [Hsl Hlen]];
    [lia | lia |].
  rewrite Hsl in E. cbn [bind] in E.
  destruct (if partType =? 20 then _ else _) as [err|hdr].
  { injection E as <-. cbn. repeat split; try lia; auto.
    exists []. rewrite app_nil_r. split; [reflexivity | cbn; lia]. }
  assert (Hm : exists acc first,
             (if partType =? 21 then mediaPart payload (accV v) (firstV v)
              else Done (accV v, firstV v)) = Done (acc, first) /\
             (exists added, acc = accV v ++ added /\ len added <= partSize) /\
             (firstV v = true -> first = true)).
  { destruct (partType =? 21).
    - destruct payload as [|b tl]; [change (len []) with 0 in Hlen; lia|].
      rewrite mediaPart_cons. do 2 eexists. split; [reflexivity|]. split; [|auto].
      assert (Hb : len (b :: tl) = 1 + len tl) by (unfold len; cbn [length]; lia).
      destruct (negb (firstV v) && (int_of_byte b =? 0));
        eexists; (split; [reflexivity | lia]).
    - do 2 eexists. split; [reflexivity|]. split; [|auto].
      exists []. rewrite app_nil_r. split; [reflexivity | cbn; lia]. }
  destruct Hm as [acc [first [Em [[added1 [Ha1 Hl1]] Hf1]]]].
  rewrite Em in E. cbn [bind] in E.
  apply IH in E; [|cbn [offset]; lia].
  cbn [offset accV firstV] in E. destruct E as [Ho [[added2 [Ha2 Hl2]] [Hf2 Hfix]]].
  repeat split; try lia; auto.
  exists (added1 ++ added2). split.
  - rewrite Ha2, Ha1. now rewrite app_assoc.
  - rewrite len_app. lia.
Qed.

(** What a call of the state machine keeps. *)
Lemma stateMachineParser_keeps (s : Session) :
  exists (h : option UMPMediaHeader) (err : option error) (s' : Session),
    stateMachineParser s = Done ((h, err), s') /\
    (exists consumed, buf s = consumed ++ buf s') /\
    (exists added, mediaAcc s' = mediaAcc s ++ added /\
                   (err = None -> len added + len (buf s') <= len (buf s))) /\
    (firstMedia s = true -> firstMedia s' = true) /\
    (err = None -> buf s' = buf s -> s' = s /\ h = None).
Proof.
  unfold stateMachineParser.
  set (v0 := mkVars 0 None (mediaAcc s) (firstMedia s)).
  assert (H0 : 0 <= offset v0 <= len (buf s)) by (cbn; pose proof (len_nonneg (buf s)); lia).
  destruct (parseLoop_total (S (length (buf s))) (buf s) v0 H0) as [e [He _]];
    [cbn [offset v0]; unfold len; lia|].
  rewrite He. cbn [bind].
  destruct (parseLoop_invariant _ _ _ _ H0 He) as [Ho [[added [Ha Hl]] [Hf Hfix]]].
  cbn [offset accV firstV v0] in Ho, Ha, Hl, Hf, Hfix.
  destruct e as [v|err v]; cbn [exitVars] in *.
  - do 3 eexists. split; [reflexivity|]. cbn [buf mediaAcc firstMedia].
    assert (Hlen : len (skipn (Z.to_nat (offset v)) (buf s)) = len (buf s) - offset v)
      by (unfold len in *; rewrite length_skipn; lia).
    split; [exists (firstn (Z.to_nat (offset v)) (buf s)); now rewrite firstn_skipn|].
    split; [exists added; split; [exact Ha | intros _; lia]|].
    split; [exact Hf|].
    intros _ Hb. rewrite Hb in Hlen.
    assert (Hz : offset v = 0) by lia.
    specialize (Hfix Hz). injection Hfix as ->. cbn. split; [now destruct s | reflexivity].
  - do 3 eexists. split; [reflexivity|]. cbn [buf mediaAcc firstMedia].
    split; [now exists []|].
    split; [exists added; split; [exact Ha | discriminate]|].
    split; [exact Hf | discriminate].
Qed.

(** The error of a call of the state machine. *)
Lemma stateMachineParser_fails_with (s s' : Session) (h : option UMPMediaHeader)
    (e : error) :
  stateMachineParser s = Done ((h, Some e), s') ->
  h = None /\ buf s' = buf s /\ exists cause, e = ErrUnmarshalHeader cause.
Proof.
  intros E. pose proof (stateMachineParser_errors _ _ _ _ E) as Hc.
  unfold stateMachineParser in E.
  destruct (parseLoop _ _ _) as [[v|err v]| |]; cbn [bind] in E; try discriminate.
  injection E as <- _ <-. auto.
Qed.

(** X5: a call of the state machine always returns, without a panic and
    within the turns its loop is given.  The buffer it leaves is what the
    call did not consume, a suffix of the buffer it was given; the
    accumulator is only appended to, never by more bytes than the buffer
    lost; a flag that was set stays set; and a call that consumes nothing
    changes nothing and returns no header. *)
Theorem stateMachineParser_safe (s : Session) :
  exists (h : option UMPMediaHeader) (err : option error) (s' : Session),
    stateMachineParser s = Done ((h, err), s') /\
    (exists consumed, buf s = consumed ++ buf s') /\
    (exists added, mediaAcc s' = mediaAcc s ++ added /\
                   (err = None -> len added + len (buf s') <= len (buf s))) /\
    (firstMedia s = true -> firstMedia s' = true) /\
    (err = None -> buf s' = buf s -> s' = s /\ h = None).
Proof. apply stateMachineParser_keeps. Qed.

(** X6: the only error a call of the state machine returns is the wrapped
    error of the header message; it comes with no header and leaves the
    buffer as it was given. *)
Theorem stateMachineParser_error (s s' : Session) (h : option UMPMediaHeader)
    (e : error) :
  stateMachineParser s = Done ((h, Some e), s') ->
  h = None /\ buf s' = buf s /\ exists cause, e = ErrUnmarshalHeader cause.
Proof. apply stateMachineParser_fails_with. Qed.

(** X7: a buffer that holds only an incomplete part: the call returns no
    header and no error and leaves accumulator and flag as they are.  When
    the type does not decode the buffer is kept whole; when the type
    decodes and the length does not, the bytes of the type are dropped;
    when both decode and the payload is short, the bytes of both are
    dropped and only the partial payload is kept. *)
Theorem stateMachineParser_incomplete (s : Session) (left : list byte) :
  stalled (buf s) left ->
  stateMachineParser s
  = Done ((None, None), mkSession left (mediaAcc s) (firstMedia s)).
Proof.
  intros Hst.
  apply (stateMachineParser_stream s [] (buf s) left []);
    [reflexivity | constructor | exact Hst | reflexivity].
Qed.

End MoreParserProperties.

(** ** Decode orchestration *)

Section EntryPointProperties.

Context {codec : MediaHeaderProto}.

Lemma chunksLoop_keeps (chunks : list (list byte)) :
  forall (s : Session) (hdr : option UMPMediaHeader),
  exists (r : UMPData) (err : option error),
    chunksLoop chunks s hdr = Done (r, err) /\
    (forall e, err = Some e ->
       r = UMPData_zero /\ exists cause, e = ErrParseUMP (ErrUnmarshalHeader cause)) /\
    (err = None ->
       exists added, Media r = mediaAcc s ++ added /\
                     len added <= len (buf s) + len (concat chunks)).
Proof.
  induction chunks as [|chunk chunks IH]; intros s hdr.
  - do 2 eexists. split; [reflexivity|]. split; [discriminate|]. intros _.
    exists []. cbn. rewrite app_nil_r. split; [reflexivity|].
    pose proof (len_nonneg (buf s)). lia.
  - cbn [chunksLoop concat]. rewrite len_app.
    destruct (len chunk =? 0) eqn:E0.
    + destruct (IH s hdr) as [r [err [E [He Hm]]]].
      exists r, err. split; [exact E|]. split; [exact He|].
      intros Hn. destruct (Hm Hn) as [added [Ha Hl]]. exists added.
      split; [exact Ha|]. pose proof (len_nonneg chunk). lia.
    + set (s1 := mkSession (buf s ++ chunk) (mediaAcc s) (firstMedia s)).
      destruct (stateMachineParser_keeps s1)
        as [h [err1 [s2 [E1 [_ [[added1 [Ha1 Hl1]] _]]]]]].
      rewrite E1. cbn [bind]. destruct err1 as [e1|].
      * do 2 eexists. split; [reflexivity|]. split; [|discriminate].
        intros e [= <-]. split; [reflexivity|].
        destruct (stateMachineParser_fails_with _ _ _ _ E1) as [_ [_ [c ->]]]. now exists c.
      * destruct (IH s2 (match h with Some _ => h | None => hdr end))
          as [r [err [E [He Hm]]]].
        exists r, err. split; [exact E|]. split; [exact He|].
        intros Hn. destruct (Hm Hn) as [added2 [Ha2 Hl2]].
        exists (added1 ++ added2). cbn [mediaAcc buf s1] in *.
        split; [rewrite Ha2, Ha1; now rewrite app_assoc|].
        specialize (Hl1 eq_refl). rewrite len_app in *. lia.
Qed.

(** X8: [ParseUMPChunks] returns on every list of chunks, without a panic.
    When it returns an error the result is the zero value, and the error
    is the no-data error, exactly when there is no chunk, or the wrapped
    error of a header message.  When it returns no error the media is no
    longer than the chunks together. *)
Theorem ParseUMPChunks_returns (chunks : list (list byte)) :
  exists (r : UMPData) (err : option error),
    ParseUMPChunks chunks = Done (r, err) /\
    (forall e, err = Some e ->
       r = UMPData_zero /\
       (e = ErrNoDataToParse \/
        exists cause, e = ErrParseUMP (ErrUnmarshalHeader cause))) /\
    (err = Some ErrNoDataToParse <-> chunks = []) /\
    (err = None -> len (Media r) <= len (concat chunks)).
Proof.
  unfold ParseUMPChunks. destruct chunks as [|chunk chunks].
  - do 2 eexists. split; [reflexivity|]. split; [|split].
    + intros e [= <-]. auto.
    + split; reflexivity.
    + discriminate.
  - replace (len (chunk :: chunks) =? 0) with false
      by (symmetry; apply Z.eqb_neq; unfold len; cbn [length]; lia).
    destruct (chunksLoop_keeps (chunk :: chunks) (mkSession [] [] false) None)
      as [r [err [E [He Hm]]]].
    exists r, err. split; [exact E|]. split; [|split].
    + intros e Hs. destruct (He e Hs) as [Hr [c Hc]]. split; [exact Hr|]. right. now exists c.
    + split; [|discriminate]. intros Hs. destruct (He _ Hs) as [_ [c Hc]]. discriminate.
    + intros Hn. destruct (Hm Hn) as [added [Ha Hl]]. cbn [mediaAcc buf app] in *.
      rewrite Ha. change (len []) with 0 in Hl. lia.
Qed.

Lemma fullLoop_returns_or_diverges (n : nat) :
  forall (s : Session) (hdr : option UMPMediaHeader),
    (length (buf s) <= n)%nat ->
    (exists (r : UMPData) (err : option error),
       fullLoop (S n) s hdr = Done (r, err) /\
       (forall e, err = Some e ->
          r = UMPData_zero /\ exists cause, e = ErrParseUMP (ErrUnmarshalHeader cause)) /\
       (err = None ->
          exists added, Media r = mediaAcc s ++ added /\ len added <= len (buf s))) \/
    (forall fuel, fullLoop fuel s hdr = OutOfFuel).
Proof.
  induction n as [|n IH]; intros s hdr Hn.
  - left. cbn [fullLoop]. destruct (buf s) eqn:Eb; [|cbn in Hn; lia].
    change (len [] >? 0) with false. cbv iota.
    do 2 eexists. split; [reflexivity|]. split; [discriminate|]. intros _.
    exists []. rewrite app_nil_r. split; [reflexivity | cbn; lia].
  - destruct (buf s) as [|b tl] eqn:Eb.
    { left. cbn [fullLoop]. rewrite Eb. change (len [] >? 0) with false. cbv iota.
      do 2 eexists. split; [reflexivity|]. split; [discriminate|]. intros _.
      exists []. rewrite app_nil_r. split; [reflexivity | cbn; lia]. }
    assert (Hpos : (len (buf s) >? 0) = true).
    { rewrite Eb. unfold len. cbn [length].
      destruct (Z.gtb_spec (Z.of_nat (S (length tl))) 0); [reflexivity | lia]. }
    destruct (stateMachineParser_keeps s)
      as [h [err1 [s' [E1 [[consumed Hc] [[added1 [Ha1 Hl1]] [_ Hfix]]]]]]].
    destruct err1 as [e1|].
    { left. cbn [fullLoop]. rewrite Hpos, E1. cbn [bind].
      do 2 eexists. split; [reflexivity|]. split; [|discriminate].
      intros e [= <-]. split; [reflexivity|].
      destruct (stateMachineParser_fails_with _ _ _ _ E1) as [_ [_ [c ->]]]. now exists c. }
    destruct consumed as [|c0 consumed].
    { right. cbn [app] in Hc. destruct (Hfix eq_refl (eq_sym Hc)) as [-> ->].
      intros fuel. apply fullLoop_stuck; [rewrite Eb; discriminate | exact E1]. }
    assert (Hlt : (length (buf s') <= n)%nat).
    { rewrite <- Eb in Hn. rewrite Hc in Hn. cbn [app length] in Hn.
      rewrite length_app in Hn. lia. }
    destruct (IH s' (match h with Some _ => h | None => hdr end) Hlt)
      as [[r [err [E [He Hm]]]]|Hdiv].
    + left. exists r, err. split; [|split; [exact He|]].
      * change (fullLoop (S (S n)) s hdr)
          with (if len (buf s) >? 0
                then '((h, err), s') <- stateMachineParser s ;;
                     match err with
                     | Some e => Done (UMPData_zero, Some (ErrParseUMP e))
                     | None => fullLoop (S n) s'
                                 (match h with Some _ => h | None => hdr end)
                     end
                else Done (mkUMPData hdr (mediaAcc s), None)).
        rewrite Hpos, E1. cbn [bind]. exact E.
      * intros Hnone. destruct (Hm Hnone) as [added2 [Ha2 Hl2]].
        exists (added1 ++ added2). split; [rewrite Ha2, Ha1; now rewrite app_assoc|].
        specialize (Hl1 eq_refl). rewrite len_app, <- Eb. lia.
    + right. intros [|fuel]; [reflexivity|]. cbn [fullLoop].
      rewrite Hpos, E1. cbn [bind]. apply Hdiv.
Qed.

(** X9: [ParseUMPFull] never panics, and either returns within as many
    turns of its loop as the buffer has bytes, plus one, or never returns.
    When it returns an error the result is the zero value and the error is
    the no-data error, exactly when the buffer is empty, or the wrapped
    error of a header message; when it returns no error the media is no
    longer than the buffer. *)
Theorem ParseUMPFull_returns_or_diverges (data : list byte) :
  (exists (r : UMPData) (err : option error),
     ParseUMPFull (S (length data)) data = Done (r, err) /\
     (forall e, err = Some e ->
        r = UMPData_zero /\
        (e = ErrNoDataToParse \/
         exists cause, e = ErrParseUMP (ErrUnmarshalHeader cause))) /\
     (err = Some ErrNoDataToParse <-> data = []) /\
     (err = None -> len (Media r) <= len data)) \/
  (forall fuel, ParseUMPFull fuel data = OutOfFuel).
Proof.
  unfold ParseUMPFull. destruct data as [|b tl].
  - left. do 2 eexists. split; [reflexivity|]. split; [|split].
    + intros e [= <-]. auto.
    + split; reflexivity.
    + discriminate.
  - replace (len (b :: tl) =? 0) with false
      by (symmetry; apply Z.eqb_neq; unfold len; cbn [length]; lia).
    destruct (fullLoop_returns_or_diverges (length (b :: tl))
                (mkSession (b :: tl) [] false) None (le_n _))
      as [[r [err [E [He Hm]]]]|Hdiv]; [left | right; exact Hdiv].
    exists r, err. split; [exact E|]. split; [|split].
    + intros e Hs. destruct (He e Hs) as [Hr [c Hc]]. split; [exact Hr|]. right. now exists c.
    + split; [|discriminate]. intros Hs. destruct (He _ Hs) as [_ [c Hc]]. discriminate.
    + intros Hn. destruct (Hm Hn) as [added [Ha Hl]]. cbn [mediaAcc buf app] in *.
      now rewrite Ha.
Qed.

(** X10: when a buffer is complete parts followed by bytes, at least one,
    whose first varint does not decode (it is cut short or its five top
    bits are set), [ParseUMPFull] never returns: the call that meets those
    bytes keeps them, and every later call finds them unchanged. *)
Theorem ParseUMPFull_never_returns (mid tail : list byte)
    (ps : list (Z * list byte)) (v o : Z) (e : error) :
  framed mid ps -> headersDecode ps ->
  tail <> [] ->
  readVarInt tail 0 = Done ((v, Some e), o) ->
  forall r, ~ ParseUMPFull_returns (mid ++ tail) r.
Proof.
  intros Hf Hdec Hne Hfail r [fuel E].
  assert (Hst : stalled tail tail) by (now apply (stalled_type tail v e o)).
  assert (Hstuck : forall acc first fuel hdr,
             fullLoop fuel (mkSession tail acc first) hdr = OutOfFuel).
  { intros acc first. apply fullLoop_stuck; [exact Hne|].
    apply (stateMachineParser_stream (mkSession tail acc first) [] tail tail []);
      [reflexivity | constructor | exact Hst | reflexivity]. }
  unfold ParseUMPFull in E.
  destruct (len (mid ++ tail) =? 0) eqn:E0.
  { apply len_eqb_nil in E0. destruct mid; [now apply Hne | discriminate]. }
  destruct fuel as [|fuel]; [discriminate|]. cbn [fullLoop buf] in E.
  replace (len (mid ++ tail) >? 0) with true in E
    by (symmetry; apply Z.eqb_neq in E0; pose proof (len_nonneg (mid ++ tail));
        destruct (Z.gtb_spec (len (mid ++ tail)) 0); [reflexivity | lia]).
  destruct (runParts_decodes _ Hdec (None, [], false)) as [h [a [f Hrun]]].
  rewrite (stateMachineParser_stream (mkSession (mid ++ tail) [] false)
             mid tail tail ps h a f eq_refl Hf Hst Hrun) in E.
  cbn [bind] in E. now rewrite Hstuck in E.
Qed.

Lemma chunksLoop_skips_empty (c1 c2 : list (list byte)) :
  forall (s : Session) (hdr : option UMPMediaHeader),
    chunksLoop (c1 ++ [] :: c2) s hdr = chunksLoop (c1 ++ c2) s hdr.
Proof.
  induction c1 as [|chunk c1 IH]; intros s hdr; [reflexivity|].
  cbn [app chunksLoop]. destruct (len chunk =? 0); [apply IH|].
  destruct (stateMachineParser _) as [[[h [e|]] s2]| |]; cbn [bind]; auto.
Qed.

(** X11: an empty chunk changes nothing: with an empty chunk put anywhere
    among chunks, at least one, [ParseUMPChunks] returns what it returns
    without it. *)
Theorem ParseUMPChunks_skips_empty (c1 c2 : list (list byte)) :
  c1 ++ c2 <> [] ->
  ParseUMPChunks (c1 ++ [] :: c2) = ParseUMPChunks (c1 ++ c2).
Proof.
  intros Hne. unfold ParseUMPChunks.
  destruct (len (c1 ++ c2) =? 0) eqn:E0; [apply len_eqb_nil in E0; contradiction|].
  destruct (len (c1 ++ [] :: c2) =? 0) eqn:E1.
  { apply len_eqb_nil in E1. now destruct c1. }
  apply chunksLoop_skips_empty.
Qed.

(** X12: a header part with a payload that does not decode aborts the
    decode, also after parts that were handled: both entry points return
    the zero value, so none of the media read before it, and the error of
    the header message wrapped twice. *)
Theorem header_failure_aborts (mid tb lb p rest : list byte)
    (ps : list (Z * list byte)) (e : error) :
  framed mid ps -> headersDecode ps ->
  readVarInt tb 0 = Done ((20, None), len tb) ->
  readVarInt lb 0 = Done ((len p, None), len lb) ->
  p <> [] ->
  headerPart p = inl e ->
  ParseUMPChunks [mid ++ tb ++ lb ++ p ++ rest]
  = Done (UMPData_zero, Some (ErrParseUMP e)) /\
  (forall fuel, ParseUMPFull (S fuel) (mid ++ tb ++ lb ++ p ++ rest)
                = Done (UMPData_zero, Some (ErrParseUMP e))) /\
  exists cause, e = ErrUnmarshalHeader cause.
Proof.
  intros Hf Hdec Ht Hl Hp He.
  set (data := mid ++ tb ++ lb ++ p ++ rest).
  pose proof (readVarInt_ok_advances _ _ _ _ (Z.le_refl 0) Ht) as Htb.
  assert (Hlen : 0 < len data).
  { unfold data. rewrite !len_app. pose proof (len_nonneg mid).
    pose proof (len_nonneg lb). pose proof (len_nonneg p). pose proof (len_nonneg rest). lia. }
  assert (E0 : (len data =? 0) = false) by (apply Z.eqb_neq; lia).
  assert (Hpos : (len data >? 0) = true)
    by (destruct (Z.gtb_spec (len data) 0); [reflexivity | lia]).
  destruct (stateMachineParser_header_fails (mkSession data [] false)
              mid tb lb p rest ps e eq_refl Hf Hdec Ht Hl Hp He) as [s' [E _]].
  split; [|split].
  - unfold ParseUMPChunks. change (len [data] =? 0) with false. cbv iota.
    cbn [chunksLoop buf mediaAcc firstMedia app]. rewrite E0, E. reflexivity.
  - intros fuel. unfold ParseUMPFull. rewrite E0. cbn [fullLoop buf].
    rewrite Hpos, E. reflexivity.
  - unfold headerPart in He. destruct (Unmarshal p) as [[c|] m]; [|discriminate].
    injection He as <-. now exists c.
Qed.

(** X13: when every chunk is made of complete parts whose header payloads
    decode, the chunked entry point and the whole-buffer entry point on the
    concatenation of the chunks return the same result, without error. *)
Theorem chunked_equals_whole_at_part_boundaries (chunks : list (list byte))
    (pss : list (list (Z * list byte))) :
  Forall2 framed chunks pss -> headersDecode (concat pss) ->
  concat chunks <> [] ->
  exists r, ParseUMPChunks chunks = Done (r, None) /\
            ParseUMPFull_returns (concat chunks) (r, None).
Proof. apply chunks_of_complete_parts_agree. Qed.

Lemma partEffect_irrelevant (ty : Z) (payload : list byte) st :
  relevantPart (ty, payload) = false -> partEffect ty payload st = inr st.
Proof.
  destruct st as [[hdr acc] first]. unfold relevantPart, dispatched, partEffect.
  cbn [fst snd]. destruct payload as [|b tl]; [reflexivity|].
  rewrite len_cons_eqb. cbn [negb]. rewrite !andb_true_r.
  intros H. apply orb_false_iff in H. destruct H as [-> ->]. reflexivity.
Qed.

Lemma runParts_relevant (ps : list (Z * list byte)) :
  forall st, runParts (filter relevantPart ps) st = runParts ps st.
Proof.
  induction ps as [|[ty payload] ps IH]; intros st; [reflexivity|].
  cbn [filter runParts]. destruct (relevantPart (ty, payload)) eqn:R.
  - cbn [runParts]. destruct (partEffect ty payload st); [reflexivity | apply IH].
  - rewrite (partEffect_irrelevant _ _ _ R). apply IH.
Qed.

(** X14: parts of other types, and parts of length zero, do not count: two
    streams of complete parts with the same header and media parts with a
    payload, in the same order, give the same result through both entry
    points, whatever other parts lie between them. *)
Theorem other_parts_ignored (d1 d2 : list byte) (ps1 ps2 : list (Z * list byte)) :
  framed d1 ps1 -> framed d2 ps2 ->
  filter relevantPart ps1 = filter relevantPart ps2 ->
  headersDecode ps1 ->
  d1 <> [] -> d2 <> [] ->
  exists r,
    ParseUMPFull_returns d1 (r, None) /\ ParseUMPFull_returns d2 (r, None) /\
    ParseUMPChunks [d1] = Done (r, None) /\ ParseUMPChunks [d2] = Done (r, None).
Proof.
  intros Hf1 Hf2 Heq Hdec Hn1 Hn2.
  destruct (runParts_decodes _ Hdec (None, [], false)) as [h [a [f Hrun1]]].
  assert (Hrun2 : runParts ps2 (None, [], false) = inr (h, a, f))
    by (rewrite <- runParts_relevant, <- Heq, runParts_relevant; exact Hrun1).
  exists (mkUMPData h a). repeat split.
  - exists 2%nat. now apply (ParseUMPFull_framed d1 ps1 h a f).
  - exists 2%nat. now apply (ParseUMPFull_framed d2 ps2 h a f).
  - apply (ParseUMPChunks_framed [d1] [ps1] h a f); [discriminate | repeat constructor; auto|].
    cbn [concat]. now rewrite app_nil_r.
  - apply (ParseUMPChunks_framed [d2] [ps2] h a f); [discriminate | repeat constructor; auto|].
    cbn [concat]. now rewrite app_nil_r.
Qed.

End EntryPointProperties.

Section ChunkPrefixes.

Context {codec : MediaHeaderProto}.

(** The loop over the chunks, cut after some of them: it has failed, and
    the rest is not looked at, or it goes on from the session it reached. *)
Lemma chunksLoop_app (c1 : list (list byte)) :
  forall (s : Session) (hdr : option UMPMediaHeader),
    (exists r e, chunksLoop c1 s hdr = Done (r, Some e) /\
                 forall c2, chunksLoop (c1 ++ c2) s hdr = Done (r, Some e)) \/
    (exists s1 hdr1,
       chunksLoop c1 s hdr = Done (mkUMPData hdr1 (mediaAcc s1), None) /\
       forall c2, chunksLoop (c1 ++ c2) s hdr = chunksLoop c2 s1 hdr1).
Proof.
  induction c1 as [|chunk c1 IH]; intros s hdr.
  - right. exists s, hdr. split; reflexivity.
  - cbn [app chunksLoop]. destruct (len chunk =? 0); [apply IH|].
    destruct (stateMachineParser_keeps
                (mkSession (buf s ++ chunk) (mediaAcc s) (firstMedia s)))
      as [h [err1 [s2 [E1 _]]]].
    rewrite E1. cbn [bind]. destruct err1 as [e1|]; [|apply IH].
    left. do 2 eexists. split; reflexivity.
Qed.

(** X15: feeding more chunks only adds to the result: when
    [ParseUMPChunks] returns without error on some chunks and on these
    followed by others, the media of the second result starts with the
    media of the first; and when it fails on some chunks, it fails with the
    same error whatever chunks follow. *)
Theorem ParseUMPChunks_prefix (c1 c2 : list (list byte)) (r1 : UMPData)
    (err1 : option error) :
  c1 <> [] ->
  ParseUMPChunks c1 = Done (r1, err1) ->
  match err1 with
  | Some e => ParseUMPChunks (c1 ++ c2) = Done (r1, Some e)
  | None =>
      exists r2 err2,
        ParseUMPChunks (c1 ++ c2) = Done (r2, err2) /\
        (err2 = None -> exists added, Media r2 = Media r1 ++ added)
  end.
Proof.
  intros Hne E. unfold ParseUMPChunks in *.
  destruct (len c1 =? 0) eqn:E0; [apply len_eqb_nil in E0; contradiction|].
  destruct (len (c1 ++ c2) =? 0) eqn:E1.
  { apply len_eqb_nil in E1. destruct c1; [contradiction | discriminate]. }
  destruct (chunksLoop_app c1 (mkSession [] [] false) None)
    as [[r [e [Ec Hall]]]|[s1 [hdr1 [Ec Hall]]]]; rewrite Ec in E; injection E as <- <-.
  - apply Hall.
  - rewrite Hall.
    destruct (chunksLoop_keeps c2 s1 hdr1) as [r2 [err2 [E2 [_ Hm]]]].
    exists r2, err2. split; [exact E2|]. intros Hn.
    destruct (Hm Hn) as [added [Ha _]]. now exists added.
Qed.

End ChunkPrefixes.

(** ** The further theorems at concrete inputs *)

Lemma stateMachineParser_error_witness :
  @None UMPMediaHeader = None /\
  buf (mkSession [x15; x01; x41; x14; x02; x12; x03] [x41] true)
  = buf (mkSession [x15; x01; x41; x14; x02; x12; x03] [] false) /\
  exists cause,
    ErrUnmarshalHeader (ErrProto "cannot parse invalid wire-format data")
    = ErrUnmarshalHeader cause.
Proof.
  apply (@stateMachineParser_error wireProto
           (mkSession [x15; x01; x41; x14; x02; x12; x03] [] false)).
  reflexivity.
Defined.

Lemma stateMachineParser_incomplete_witness :
  @stateMachineParser wireProto (mkSession [x15; x02; x41] [x40] true)
  = Done ((None, None), mkSession [x41] [x40] true).
Proof.
  apply (@stateMachineParser_incomplete wireProto
           (mkSession [x15; x02; x41] [x40] true) [x41]).
  apply (stalled_payload [x15] 21 [x02] 2 [x41]); [reflexivity | reflexivity | reflexivity].
Defined.

Lemma ParseUMPFull_never_returns_witness :
  ~ @ParseUMPFull_returns wireProto ([x15; x01; x41] ++ [xf8; x00])
      (mkUMPData None [x41], None).
Proof.
  apply (fun Hf Hd Hn Hr =>
           @ParseUMPFull_never_returns wireProto [x15; x01; x41] [xf8; x00]
             [(21, [x41])] 0 0 (ErrInvalidVarint 0) Hf Hd Hn Hr
             (mkUMPData None [x41], None)).
  - apply (framed_short x15 x01 21 [x41]); [reflexivity | reflexivity | apply framed_nil].
  - repeat constructor; discriminate.
  - discriminate.
  - reflexivity.
Defined.

Lemma ParseUMPChunks_skips_empty_witness :
  @ParseUMPChunks wireProto ([[x15; x01; x41]] ++ [] :: [[x15; x01; x42]])
  = @ParseUMPChunks wireProto ([[x15; x01; x41]] ++ [[x15; x01; x42]]).
Proof.
  apply (@ParseUMPChunks_skips_empty wireProto [[x15; x01; x41]] [[x15; x01; x42]]).
  discriminate.
Defined.

Lemma header_failure_aborts_witness :
  @ParseUMPChunks wireProto [[x15; x01; x41] ++ [x14] ++ [x02] ++ [x12; x03] ++ [x15]]
  = Done (UMPData_zero,
          Some (ErrParseUMP (ErrUnmarshalHeader
                  (ErrProto "cannot parse invalid wire-format data")))) /\
  (forall fuel,
     @ParseUMPFull wireProto (S fuel)
       ([x15; x01; x41] ++ [x14] ++ [x02] ++ [x12; x03] ++ [x15])
     = Done (UMPData_zero,
             Some (ErrParseUMP (ErrUnmarshalHeader
                     (ErrProto "cannot parse invalid wire-format data"))))) /\
  exists cause,
    ErrUnmarshalHeader (ErrProto "cannot parse invalid wire-format data")
    = ErrUnmarshalHeader cause.
Proof.
  apply (@header_failure_aborts wireProto [x15; x01; x41] [x14] [x02] [x12; x03] [x15]
           [(21, [x41])]).
  - apply (framed_short x15 x01 21 [x41]); [reflexivity | reflexivity | apply framed_nil].
  - repeat constructor; discriminate.
  - reflexivity.
  - reflexivity.
  - discriminate.
  - reflexivity.
Defined.

Lemma chunked_equals_whole_at_part_boundaries_witness :
  exists r,
    @ParseUMPChunks wireProto [[x15; x01; x41]; [x15; x02; x00; x42]] = Done (r, None) /\
    @ParseUMPFull_returns wireProto
      (concat [[x15; x01; x41]; [x15; x02; x00; x42]]) (r, None).
Proof.
  apply (@chunked_equals_whole_at_part_boundaries wireProto
           [[x15; x01; x41]; [x15; x02; x00; x42]]
           [[(21, [x41])]; [(21, [x00; x42])]]).
  - constructor; [|constructor; [|constructor]].
    + apply (framed_short x15 x01 21 [x41]); [reflexivity | reflexivity | apply framed_nil].
    + apply (framed_short x15 x02 21 [x00; x42]); [reflexivity | reflexivity | apply framed_nil].
  - repeat constructor; discriminate.
  - discriminate.
Defined.

Lemma other_parts_ignored_witness :
  exists r,
    @ParseUMPFull_returns wireProto [x15; x01; x41; x07; x01; x09; x15; x00] (r, None) /\
    @ParseUMPFull_returns wireProto [x15; x01; x41] (r, None) /\
    @ParseUMPChunks wireProto [[x15; x01; x41; x07; x01; x09; x15; x00]] = Done (r, None) /\
    @ParseUMPChunks wireProto [[x15; x01; x41]] = Done (r, None).
Proof.
  apply (@other_parts_ignored wireProto
           [x15; x01; x41; x07; x01; x09; x15; x00] [x15; x01; x41]
           [(21, [x41]); (7, [x09]); (21, [])] [(21, [x41])]).
  - apply (framed_short x15 x01 21 [x41]); [reflexivity | reflexivity |].
    apply (framed_short x07 x01 7 [x09]); [reflexivity | reflexivity |].
    apply (framed_short x15 x00 21 []); [reflexivity | reflexivity | apply framed_nil].
  - apply (framed_short x15 x01 21 [x41]); [reflexivity | reflexivity | apply framed_nil].
  - reflexivity.
  - repeat constructor; discriminate.
  - discriminate.
  - discriminate.
Defined.

Lemma ParseUMPChunks_prefix_witness :
  exists r2 err2,
    @ParseUMPChunks wireProto ([[x15; x01; x41]] ++ [[x15; x02]; [x42; x43]])
    = Done (r2, err2) /\
    (err2 = None -> exists added, Media r2 = Media (mkUMPData None [x41]) ++ added).
Proof.
  apply (@ParseUMPChunks_prefix wireProto [[x15; x01; x41]] [[x15; x02]; [x42; x43]]
           (mkUMPData None [x41]) None).
  - discriminate.
  - reflexivity.
Defined.
